(** * go-datastore: the SQL driver and the transaction read path

    A shallow embedding of
    - [database/driver/sql.go]: [placeholder.ReplacePlaceholders],
      [isLocalhost], [applyMigration] and [NewSQL];
    - [database/driver/postgres.go]: the three sentinel errors and the
      error mapping of [pgTxn.Get], [pgTxn.List] and [pgTxn.Exec];
    - the [Txn.List] read path of package [ark].

    Go strings are byte strings and are modelled by [string]; Go's [int]
    is taken to be 64 bits wide and is modelled by [Z], with the
    wrap-around written where an operation can leave the range. *)

From Stdlib Require Import ZArith Ascii String.
From stdpp Require Import gmap strings list fin_maps functions pretty.
From Equations Require Import Equations.
From Equations.Prop Require Import Logic.

Set Default Proof Using "Type".
Local Open Scope Z_scope.
#[local] Arguments String.append !_ _ / : simpl nomatch.

(** ** Byte-string helpers of the Go standard library *)

Module GoStrings.

(** [s[:n]] *)
Fixpoint take (n : nat) (s : string) : string :=
  match n, s with
  | S n', String c r => String c (take n' r)
  | _, _ => EmptyString
  end.

(** [s[n:]] *)
Fixpoint drop (n : nat) (s : string) : string :=
  match n, s with
  | S n', String c r => drop n' r
  | _, _ => s
  end.

(** [s[lo:hi]] *)
Definition slice (lo hi : nat) (s : string) : string := take (hi - lo) (drop lo s).

(** [strings.Index(s, string(c))] for a one-byte needle; [None] is Go's -1. *)
Fixpoint IndexByte (c : ascii) (s : string) : option nat :=
  match s with
  | EmptyString => None
  | String d r => if Ascii.eqb d c then Some 0%nat else S <$> IndexByte c r
  end.

(** [strings.Split(s, string(sep))] for a one-byte separator: the pieces
    between the separators, always at least one piece. *)
Fixpoint Split (sep : ascii) (s : string) : list string :=
  match s with
  | EmptyString => [EmptyString]
  | String c r =>
      if Ascii.eqb c sep then EmptyString :: Split sep r
      else match Split sep r with
           | h :: t => String c h :: t
           | [] => [String c EmptyString]
           end
  end.

(** [strings.HasSuffix(s, suf)] *)
Definition HasSuffix (s suf : string) : bool :=
  String.eqb (drop (String.length s - String.length suf) s) suf
  && (String.length suf <=? String.length s)%nat.

(** [strings.TrimSuffix(s, suf)] *)
Definition TrimSuffix (s suf : string) : string :=
  if HasSuffix s suf then take (String.length s - String.length suf) s else s.

(** Whether the byte [c] occurs in [s]. *)
Definition Contains (c : ascii) (s : string) : bool :=
  bool_decide (is_Some (IndexByte c s)).

Lemma length_drop n s : String.length (drop n s) = (String.length s - n)%nat.
Proof. revert s; induction n as [|n IH]; intros [|c r]; simpl; auto. Qed.

Lemma take_drop n s : take n s +:+ drop n s = s.
Proof.
  revert s; induction n as [|n IH]; intros [|c r]; simpl; auto.
  f_equal. apply IH.
Qed.

Lemma drop_drop n m s : drop n (drop m s) = drop (m + n) s.
Proof.
  revert s; induction m as [|m IH]; intros s; simpl; [done|].
  destruct s as [|c r]; [by destruct n|]. apply IH.
Qed.

Lemma app_assoc (a b c : string) : (a +:+ b) +:+ c = a +:+ b +:+ c.
Proof. induction a as [|x a IH]; simpl; [done|]. f_equal. apply IH. Qed.

Lemma IndexByte_lt c s p : IndexByte c s = Some p → (p < String.length s)%nat.
Proof.
  revert p; induction s as [|d r IH]; simpl; intros p; [done|].
  destruct (Ascii.eqb d c); [intros [= <-]; lia|].
  destruct (IndexByte c r) as [q|]; simpl; [|done].
  intros [= <-]. specialize (IH _ eq_refl). lia.
Qed.

(** The byte at the index found is the needle, and no earlier byte is. *)
Lemma IndexByte_Some c s p :
  IndexByte c s = Some p →
  IndexByte c (take p s) = None ∧ drop p s = String c (drop (S p) s).
Proof.
  revert p; induction s as [|d r IH]; simpl; intros p; [done|].
  destruct (Ascii.eqb_spec d c) as [->|Hne].
  - intros [= <-]. done.
  - destruct (IndexByte c r) as [q|] eqn:Hq; simpl; [|done].
    intros [= <-]. destruct (IH _ eq_refl) as [H1 H2]. simpl.
    destruct (Ascii.eqb_spec d c); [done|]. by rewrite H1.
Qed.

Lemma Split_cons sep s : ∃ h t, Split sep s = h :: t.
Proof.
  induction s as [|c r [h [t IH]]]; simpl; [by eauto|].
  destruct (Ascii.eqb c sep); [by eauto|]. rewrite IH. by eauto.
Qed.

(** The first piece of [Split] is the text before the first separator. *)
Lemma Split_head sep s :
  hd "" (Split sep s) =
    match IndexByte sep s with Some p => take p s | None => s end.
Proof.
  induction s as [|c r IH]; simpl; [done|].
  destruct (Ascii.eqb c sep); [done|].
  destruct (Split_cons sep r) as [h [t E]]. rewrite E in IH |- *. simpl in *.
  destruct (IndexByte sep r); simpl; by rewrite IH.
Qed.

End GoStrings.

(** ** Errors

    The error values that cross the functions modelled here. Go compares
    the sentinels by identity ([err != goose.ErrNoNextVersion]); here they
    are constructors, so the comparison is equality. [trail.Stacktrace] and
    [tea.Error] belong to go-tea and annotate an error they are given; they
    are kept as constructors around it: the annotated error is a value of
    its own, and [trail.IsError] and [trail.AsError] find the error under
    the annotations. *)

Inductive kind : Type :=
  | KNotFound      (* trail.NewErrorNotFound *)
  | KNoContent     (* trail.NewErrorNoContent *)
  | KPlain.        (* trail.NewError, tea.NewError *)

Inductive error : Type :=
  | ErrNoNextVersion                  (* goose.ErrNoNextVersion *)
  | ErrNoRows                         (* pgx.ErrNoRows *)
  | PgError (code : string)           (* *pgconn.PgError with its SQLSTATE *)
  | Foreign (msg : string)            (* any other error of a collaborator *)
  | Trail (k : kind) (msg : string)   (* an error made by go-tea *)
  | Stacktrace (e : error)            (* trail.Stacktrace(e) *)
  | TeaError (e : error).             (* tea.Error(e) *)

#[global] Instance kind_eq_dec : EqDecision kind.
Proof. solve_decision. Defined.

#[global] Instance error_eq_dec : EqDecision error.
Proof. solve_decision. Defined.

(** ** [placeholder.ReplacePlaceholders] (sql.go) *)

Module Placeholder.
Import GoStrings.

(** [type placeholder string] *)
Definition placeholder := string.

(** The body of the [for] loop, with the buffer [buf], the counter [i] and
    the rest of the input [sql] as loop state. Every turn cuts at least
    one byte off [sql], which is the measure. *)
Equations? loop (ph : placeholder) (i : Z) (buf sql : string) : string
  by wf (String.length sql) lt :=
loop ph i buf sql with inspect (IndexByte "?" sql) := {
  | exist _ None _ => buf +:+ sql
  | exist _ (Some p) Hp =>
      if (1 <? String.length (drop p sql))%nat
         && String.eqb (slice p (p + 2) sql) "??"
      then loop ph i ((buf +:+ take p sql) +:+ "?") (drop (p + 2) sql)
      else loop ph (i + 1)
             ((buf +:+ take p sql) +:+ (ph +:+ pretty (i + 1)))
             (drop (p + 1) sql) }.
Proof.
  all: apply IndexByte_lt in Hp; rewrite length_drop; lia.
Defined.

Definition ReplacePlaceholders (ph : placeholder) (sql : string)
  : string * option error :=
  if bool_decide (ph = "") || bool_decide (ph = "?") then (sql, None)
  else (loop ph 0 "" sql, None).

(** The contract in the words of the specification: scanning left to
    right, an escaped pair [??] becomes one literal [?] and is not
    counted, any other [?] becomes the token followed by the next value
    of a counter that starts at 1, and every other byte is kept. [n] is
    the number of placeholders already numbered. *)
Fixpoint rewrite_spec (ph : string) (n : Z) (s : string) : string :=
  match s with
  | EmptyString => EmptyString
  | String c r =>
      if Ascii.eqb c "?" then
        match r with
        | String d r' =>
            if Ascii.eqb d "?" then String "?" (rewrite_spec ph n r')
            else (ph +:+ pretty (n + 1)) +:+ rewrite_spec ph (n + 1) r
        | EmptyString => (ph +:+ pretty (n + 1)) +:+ rewrite_spec ph (n + 1) r
        end
      else String c (rewrite_spec ph n r)
  end.

Lemma rewrite_spec_no_mark ph n s :
  IndexByte "?" s = None → rewrite_spec ph n s = s.
Proof.
  induction s as [|c r IH]; simpl; [done|].
  destruct (Ascii.eqb c "?"); [done|].
  destruct (IndexByte "?" r); [done|]. intros _. by rewrite IH.
Qed.

Lemma rewrite_spec_app ph n pre rest :
  IndexByte "?" pre = None →
  rewrite_spec ph n (pre +:+ rest) = pre +:+ rewrite_spec ph n rest.
Proof.
  induction pre as [|c r IH]; simpl; [done|].
  destruct (Ascii.eqb c "?"); [done|].
  destruct (IndexByte "?" r); [done|]. intros _. by rewrite IH.
Qed.

Lemma loop_spec ph i buf sql :
  loop ph i buf sql = buf +:+ rewrite_spec ph i sql.
Proof.
  funelim (loop ph i buf sql); clear Heqcall;
    [|by rewrite rewrite_spec_no_mark].
  match goal with E : {| pr1 := _ |} = _ |- _ => clear E end.
  destruct (IndexByte_Some _ _ _ Hp) as [Hpre Hat].
  replace (rewrite_spec ph i sql)
    with (rewrite_spec ph i (take p sql +:+ drop p sql))
    by (by rewrite take_drop).
  rewrite rewrite_spec_app by done.
  unfold slice in *. replace (p + 2 - p)%nat with 2%nat in * by lia.
  replace (drop (p + 2) sql) with (drop 1 (drop (S p) sql)) in *
    by (rewrite drop_drop; f_equal; lia).
  replace (p + 1)%nat with (S p) in * by lia.
  rewrite Hat in *. clear Hat.
  generalize dependent (drop (S p) sql). intros rest Hthen Helse.
  destruct rest as [|d r']; simpl in *.
  - rewrite Helse. by rewrite !app_assoc.
  - destruct (Ascii.eqb_spec d "?") as [->|Hne]; simpl in *.
    + rewrite Hthen. by rewrite !app_assoc.
    + rewrite Helse. by rewrite !app_assoc.
Qed.

(** C7. With a token other than the empty string and [?], the rewriter
    does what the contract says: every [?] outside an escaped pair becomes
    the token and the next number, counting from 1 left to right, every
    escaped pair [??] becomes one [?] and is not counted, and the other
    bytes are kept. With the token empty or [?] the input comes back as it
    is. The error is always nil. *)
Theorem ReplacePlaceholders_contract ph sql :
  (ph ≠ "" → ph ≠ "?" →
   ReplacePlaceholders ph sql = (rewrite_spec ph 0 sql, None))
  ∧ (ph = "" ∨ ph = "?" → ReplacePlaceholders ph sql = (sql, None))
  ∧ ReplacePlaceholders "$" "? = ? and ?? = ?" = ("$1 = $2 and ? = $3", None).
Proof.
  unfold ReplacePlaceholders. split_and!.
  - intros H1 H2. rewrite !bool_decide_eq_false_2 by done. simpl.
    by rewrite loop_spec.
  - intros [->| ->]; reflexivity.
  - vm_compute. reflexivity.
Qed.

Lemma ReplacePlaceholders_contract_witness :
  ReplacePlaceholders ":p" "a = ? or b in (?, ?) or c ??| ?"
  = (rewrite_spec ":p" 0 "a = ? or b in (?, ?) or c ??| ?", None)
  ∧ ReplacePlaceholders "?" "a = ? and ??" = ("a = ? and ??", None).
Proof.
  split.
  - apply (proj1 (ReplacePlaceholders_contract ":p" _)); discriminate.
  - apply (proj1 (proj2 (ReplacePlaceholders_contract "?" _))). by right.
Defined.

End Placeholder.

(** ** [isLocalhost] (sql.go) *)

Module Host.
Import GoStrings.

Definition isLocalhost (host : string) : bool :=
  let hostPort := Split ":" host in
  (* hostPort[0]: [Split] never returns an empty slice ([Split_cons]) *)
  let host := hd "" hostPort in
  String.eqb host "localhost"
  || String.eqb host "host.docker.internal"
  || String.eqb host "db".

(** The text of [host] before its first colon. *)
Definition first_segment (host : string) : string :=
  match IndexByte ":" host with Some p => take p host | None => host end.

Definition local_names : list string :=
  ["localhost"; "host.docker.internal"; "db"].

Lemma isLocalhost_first_segment host :
  isLocalhost host = true ↔ first_segment host ∈ local_names.
Proof.
  unfold isLocalhost, first_segment, local_names. rewrite Split_head.
  rewrite !orb_true_iff, !String.eqb_eq, !elem_of_cons, elem_of_nil.
  tauto.
Qed.

Lemma first_segment_port name port :
  IndexByte ":" name = None → first_segment (name +:+ ":" +:+ port) = name.
Proof.
  unfold first_segment. induction name as [|c r IH]; simpl; [done|].
  destruct (Ascii.eqb c ":"); [done|].
  destruct (IndexByte ":" r) eqn:E; [done|]. intros _.
  specialize (IH eq_refl). simpl in *.
  destruct (IndexByte ":" (r +:+ String ":" port)); simpl in *; by f_equal.
Qed.

End Host.

(** ** Machine integers and the [float64] detour of [math.Max] *)

Module GoNum.

Definition MaxInt : Z := 2 ^ 63 - 1.

(** Two's-complement wrap-around of a 64-bit [int]. *)
Definition wrap64 (z : Z) : Z := (z + 2 ^ 63) mod 2 ^ 64 - 2 ^ 63.

(** [float64(n)] for an [int] [n]: the nearest double, ties to even. The
    doubles met here are whole numbers and are represented by their
    value. Below [2^53] the conversion is exact. *)
Definition float64_of_int (n : Z) : Z :=
  let a := Z.abs n in
  if a <? 2 ^ 53 then n
  else
    let ulp := 2 ^ (Z.log2 a - 52) in
    let q := a / ulp in
    let r := a mod ulp in
    let q' := if (ulp <? 2 * r) || ((ulp =? 2 * r) && Z.odd q)
              then q + 1 else q in
    Z.sgn n * (q' * ulp).

(** [math.Max] on two such doubles. *)
Definition math_Max (x y : Z) : Z := Z.max x y.

(** [int(x)] for a whole double [x]. When [x] is outside the range of
    [int] the Go specification leaves the result to the implementation:
    it is the parameter [indefinite]. *)
Definition int_of_float64 (indefinite : Z) (x : Z) : Z :=
  if (- 2 ^ 63 <=? x) && (x <? 2 ^ 63) then x else indefinite.

Lemma float64_of_int_small n : Z.abs n < 2 ^ 53 → float64_of_int n = n.
Proof.
  intros H. unfold float64_of_int.
  destruct (Z.ltb_spec (Z.abs n) (2 ^ 53)); [done|lia].
Qed.

(** Below [2^53] the detour through [float64] is the integer maximum. *)
Lemma max_via_float64 indefinite a b :
  0 ≤ a < 2 ^ 53 → 0 ≤ b < 2 ^ 53 →
  int_of_float64 indefinite (math_Max (float64_of_int a) (float64_of_int b))
  = a `max` b.
Proof.
  intros Ha Hb. rewrite !float64_of_int_small by lia.
  unfold int_of_float64, math_Max.
  destruct (Z.leb_spec (- 2 ^ 63) (a `max` b)); [|lia].
  destruct (Z.ltb_spec (a `max` b) (2 ^ 63)); [done|lia].
Qed.

Example float64_of_int_rounds :
  float64_of_int (2 ^ 53 + 1) = 2 ^ 53
  ∧ float64_of_int (2 ^ 53 + 3) = 2 ^ 53 + 4
  ∧ float64_of_int MaxInt = 2 ^ 63.
Proof. split_and!; reflexivity. Qed.

End GoNum.

(** ** The migration and seed orchestrator: [applyMigration], [NewSQL] (sql.go) *)

Module Migration.
Import GoNum.

(** An [fs.DirEntry], as far as the orchestrator looks at it. *)
Record DirEntry : Type := { Name : string; IsDir : bool }.

(** *** The two file-name patterns *)

(** [\d]: an ASCII digit. *)
Definition is_digit (c : ascii) : bool :=
  (48 <=? nat_of_ascii c)%nat && (nat_of_ascii c <=? 57)%nat.

(** The longest prefix of digits, and what follows it. [\d+] is greedy:
    this prefix is the capture group of both patterns. *)
Fixpoint span_digits (s : string) : string * string :=
  match s with
  | String c r =>
      if is_digit c then let '(ds, rest) := span_digits r in (String c ds, rest)
      else (EmptyString, s)
  | EmptyString => (EmptyString, EmptyString)
  end.

Definition newline : ascii := ascii_of_nat 10.

(** [migrationFile.FindStringSubmatch(name)] for [^(\d+)_.+\.sql$],
    giving [matches[1]] when there is a match: digits, an underscore,
    at least one byte, and [.sql] at the very end. [.] matches no
    newline, and [$] (no [m] flag) only matches at the end of the text. *)
Definition migrationFile (name : string) : option string :=
  match span_digits name with
  | (String d ds, String c body) =>
      if Ascii.eqb c "_"
         && (4 <? String.length body)%nat
         && GoStrings.HasSuffix body ".sql"
         && negb (GoStrings.Contains newline body)
      then Some (String d ds) else None
  | _ => None
  end.

(** [seedFile.FindStringSubmatch(name)] for [^(\d+).*$]. *)
Definition seedFile (name : string) : option string :=
  match span_digits name with
  | (String d ds, rest) =>
      if negb (GoStrings.Contains newline rest) then Some (String d ds) else None
  | _ => None
  end.

(** *** [strconv.Atoi] on a string of digits *)

Fixpoint digits_value (acc : Z) (s : string) : Z :=
  match s with
  | EmptyString => acc
  | String c r => digits_value (10 * acc + (Z.of_nat (nat_of_ascii c) - 48)) r
  end.

Fixpoint all_digits (s : string) : bool :=
  match s with
  | EmptyString => true
  | String c r => is_digit c && all_digits r
  end.

(** Only the unsigned decimal inputs that the patterns above capture are
    modelled in full; out of range, [Atoi] returns the largest [int]
    together with a range error. *)
Definition Atoi (s : string) : Z * option error :=
  match s with
  | EmptyString => (0, Some (Foreign "strconv.Atoi: invalid syntax"))
  | _ =>
      if all_digits s then
        let v := digits_value 0 s in
        if v <=? MaxInt then (v, None)
        else (MaxInt, Some (Foreign "strconv.Atoi: value out of range"))
      else (0, Some (Foreign "strconv.Atoi: invalid syntax"))
  end.

(** *** The collaborators: goose and the database behind it *)

(** What the orchestrator does to the outside world, with the answer it
    got. [EvUpSeed] is [goose.Up] with [WithNoVersioning] and
    [WithAllowMissing]. *)
Inductive event : Type :=
  | EvReadDir (dir : string) (entries : list DirEntry)
  | EvGetDBVersion (version : Z)
  | EvUpTo (dir : string) (version : Z) (err : option error)
  | EvUpSeed (dir : string) (err : option error)
  | EvUp (dir : string) (err : option error)
  | EvDown (dir : string) (err : option error).

(** goose and the database are deterministic in the history of the run:
    each answer is a function of the events so far. [indefinite] is the
    platform's result for an out-of-range [float64] to [int] conversion. *)
Record Goose : Type := {
  GetDBVersion : list event → Z;
  UpTo : list event → string → Z → option error;
  UpSeed : list event → string → option error;
  Up : list event → string → option error;
  Down : list event → string → option error;
  indefinite : Z
}.

(** Computations that extend the history. *)
Definition M (A : Type) : Type := list event → A * list event.

Definition ret {A} (x : A) : M A := λ h, (x, h).
Definition bind {A B} (m : M A) (k : A → M B) : M B :=
  λ h, let '(x, h') := m h in k x h'.

#[local] Notation "x <- m ;; k" := (bind m (λ x, k))
  (at level 62, m at next level, right associativity).
#[local] Notation "m ;;; k" := (bind m (λ _, k))
  (at level 62, right associativity).

(** [err != nil && err != goose.ErrNoNextVersion] *)
Definition fatal (err : option error) : bool :=
  match err with
  | Some e => negb (bool_decide (e = ErrNoNextVersion))
  | None => false
  end.

(** *** The data of [NewSQL] and [newPostgres] (postgres.go) *)

(** [url.URL]: its [Host] field and what [String()] returns. A
    [*url.URL] is an [option URL], [None] for the nil pointer. *)
Record URL : Type := { Host : string; URLString : string }.

(** How a call ends: it returns, or it panics on a nil pointer. *)
Inductive outcome (A : Type) : Type :=
  | Returned (x : A)
  | Panicked.

Arguments Returned {A} x.
Arguments Panicked {A}.

(** [database.Config], the fields read here. [MigrationFS] is [None]
    for a nil interface. [SQLOpenFunc] is reduced to its error. *)
Record Config : Type := {
  MigrationFS : option (string → list DirEntry);
  MigrationDirectory : string;
  MigrationTable : string;
  SeedDirectory : string;
  SQLOpenFunc : string → string → option error
}.

Record pg : Type := { ph : Placeholder.placeholder; url : option URL }.

Record SQL : Type := { backend : pg }.

(** Two gooses that answer alike. *)
Definition goose_agree (g1 g2 : Goose) : Prop :=
  (∀ h, GetDBVersion g1 h = GetDBVersion g2 h)
  ∧ (∀ h d v, UpTo g1 h d v = UpTo g2 h d v)
  ∧ (∀ h d, UpSeed g1 h d = UpSeed g2 h d)
  ∧ (∀ h d, Up g1 h d = Up g2 h d)
  ∧ (∀ h d, Down g1 h d = Down g2 h d)
  ∧ indefinite g1 = indefinite g2.

(** *** A small world for the examples *)

Definition file (name : string) : DirEntry := {| Name := name; IsDir := false |}.
Definition folder (name : string) : DirEntry := {| Name := name; IsDir := true |}.

(** Migrations 1, 2 and 3, and the seeds [1 -> seedA], [2 -> seedB]. *)
Definition example_fs (d : string) : list DirEntry :=
  if String.eqb d "migrations"
  then [file "1_init.sql"; file "2_users.sql"; file "3_index.sql"]
  else if String.eqb d "seeds"
  then [folder "1_seedA"; folder "2_seedB"]
  else [].

(** A database at version 0 on which every step succeeds. *)
Definition goose_ok : Goose :=
  {| GetDBVersion := λ _, 0;
     UpTo := λ _ _ _, None;
     UpSeed := λ _ _, None;
     Up := λ _ _, None;
     Down := λ _ _, None;
     indefinite := - 2 ^ 63 |}.

(** The same, but the migration to version [v] fails. *)
Definition goose_fail_at (v : Z) : Goose :=
  {| GetDBVersion := λ _, 0;
     UpTo := λ _ _ v', if v' =? v then Some (Foreign "syntax error") else None;
     UpSeed := λ _ _, None;
     Up := λ _ _, None;
     Down := λ _ _, None;
     indefinite := - 2 ^ 63 |}.

(** A database that is already at the last version: every migration step
    answers "no next version". *)
Definition goose_converged : Goose :=
  {| GetDBVersion := λ _, 3;
     UpTo := λ _ _ _, Some ErrNoNextVersion;
     UpSeed := λ _ _, None;
     Up := λ _ _, None;
     Down := λ _ _, None;
     indefinite := - 2 ^ 63 |}.

Definition example_config : Config :=
  {| MigrationFS := Some example_fs;
     MigrationDirectory := "migrations";
     MigrationTable := "goose_db_version";
     SeedDirectory := "seeds";
     SQLOpenFunc := λ _ _, None |}.

Definition example_url (host : string) : URL :=
  {| Host := host; URLString := "postgres://" +:+ host +:+ "/app" |}.

(** An interleaved step (not the catch-all) that failed. *)
Definition interleaved_step_failed (ev : event) : bool :=
  match ev with
  | EvUpTo _ _ r | EvUpSeed _ r => fatal r
  | _ => false
  end.

(** The versions the run migrated [mig] to: its [goose.UpTo] steps that
    returned nil. *)
Definition migrated (mig : string) (tr : list event) : list Z :=
  omap (λ ev, match ev with
              | EvUpTo d v None => if String.eqb d mig then Some v else None
              | _ => None
              end) tr.

(** The number of [goose.Down] calls on directory [d]. *)
Definition downs_on (d : string) (tr : list event) : nat :=
  length (List.filter (λ ev, match ev with
                             | EvDown d' _ => String.eqb d' d
                             | _ => false
                             end) tr).

Section Orchestrator.
Context (goose : Goose).

(** [dir.ReadDir(name)]; the error is dropped by the caller. *)
Definition readDir (dir : string → list DirEntry) (name : string)
  : M (list DirEntry) :=
  λ h, let es := dir name in (es, h ++ [EvReadDir name es]).

Definition getDBVersion : M Z :=
  λ h, let v := GetDBVersion goose h in (v, h ++ [EvGetDBVersion v]).

Definition upTo (d : string) (v : Z) : M (option error) :=
  λ h, let r := UpTo goose h d v in (r, h ++ [EvUpTo d v r]).

Definition upSeed (d : string) : M (option error) :=
  λ h, let r := UpSeed goose h d in (r, h ++ [EvUpSeed d r]).

Definition up (d : string) : M (option error) :=
  λ h, let r := Up goose h d in (r, h ++ [EvUp d r]).

Definition down (d : string) : M (option error) :=
  λ h, let r := Down goose h d in (r, h ++ [EvDown d r]).

(** One turn of the first [for] loop over the migration entries. *)
Definition scan_migration (maxMigrationVersion : Z) (entry : DirEntry) : Z :=
  match migrationFile (Name entry) with
  | Some m1 =>
      let '(version, _) := Atoi m1 in
      if maxMigrationVersion <? version then version else maxMigrationVersion
  | None => maxMigrationVersion
  end.

(** One turn of the loop over the seed entries; the state is the map
    [seeds] and [minSeedVersion]. *)
Definition scan_seed (seedDirectory : string)
    (st : gmap Z string * Z) (entry : DirEntry) : gmap Z string * Z :=
  let '(seeds, minSeedVersion) := st in
  if IsDir entry then
    match seedFile (Name entry) with
    | Some m1 =>
        match Atoi m1 with
        | (version, None) =>
            (<[version := GoStrings.TrimSuffix seedDirectory "/" +:+ "/" +:+ Name entry]> seeds,
             if (minSeedVersion =? -1) || (version <? minSeedVersion)
             then version else minSeedVersion)
        | (_, Some _) => st
        end
    | None => st
    end
  else st.

Definition scan_migrations (entries : list DirEntry) : Z :=
  foldl scan_migration 0 entries.

Definition scan_seeds (seedDirectory : string) (entries : list DirEntry)
  : gmap Z string * Z :=
  foldl (scan_seed seedDirectory) (∅, -1) entries.

(** [int(math.Max(float64(maxMigrationVersion), float64(len(seeds))))] *)
Definition steps (maxMigrationVersion : Z) (seeds : gmap Z string) : Z :=
  int_of_float64 (indefinite goose)
    (math_Max (float64_of_int maxMigrationVersion)
              (float64_of_int (Z.of_nat (size seeds)))).

(** The interleaving loop [for i := 0; i < max; i++], entered with the
    function's [err] variable. It leaves with the [err] of the last
    step, by [break] or because [i] reached [max]. [n] bounds the
    turns left; the caller passes [max] itself. *)
Fixpoint interleave (migrationDirectory : string) (seeds : gmap Z string)
    (minSeedVersion version max : Z) (n : nat) (i : Z) (err : option error)
  : M (option error) :=
  match n with
  | O => ret err
  | S n' =>
      if i <? max then
        err <- upTo migrationDirectory (i + 1);;
        if fatal err then ret err
        else
          let seedVersion := wrap64 (i + minSeedVersion) in
          match seeds !! seedVersion with
          | Some seed =>
              if version <? seedVersion then
                err <- upSeed seed;;
                if fatal err then ret err
                else interleave migrationDirectory seeds minSeedVersion
                       version max n' (i + 1) err
              else interleave migrationDirectory seeds minSeedVersion
                     version max n' (i + 1) err
          | None => interleave migrationDirectory seeds minSeedVersion
                      version max n' (i + 1) err
          end
      else ret err
  end.

(** The values of [seeds] in the order of [range seeds]. Go leaves that
    order open; [map_to_list] fixes one, and no statement below depends on
    which. *)
Definition seed_dirs (seeds : gmap Z string) : list string :=
  snd <$> map_to_list seeds.

(** [for _, seed := range seeds { _ = goose.Down(db, seed) }] *)
Fixpoint down_all (ds : list string) : M unit :=
  match ds with
  | [] => ret tt
  | d :: ds' => down d ;;; down_all ds'
  end.

(** [applyMigration]. The four goose setters at its head hand the
    logger, [dir], [migrationTable] and [dialect] to the goose package,
    which [goose] stands for together with the [*sql.DB]; they leave no
    event. *)
Definition applyMigration (localhost : bool) (dir : string → list DirEntry)
    (dialect migrationTable migrationDirectory seedDirectory : string)
  : M (option error) :=
  entries <- readDir dir migrationDirectory;;
  let maxMigrationVersion := scan_migrations entries in
  st <- (if localhost && negb (String.eqb seedDirectory "")
         then entries <- readDir dir seedDirectory;;
              ret (scan_seeds seedDirectory entries)
         else ret (∅, -1));;
  let '(seeds, minSeedVersion) := st in
  let max := steps maxMigrationVersion seeds in
  version <- getDBVersion;;
  err <- (if localhost
          then interleave migrationDirectory seeds minSeedVersion version
                 max (Z.to_nat max) 0 None
          else ret None);;
  err <- (match err with
          | None => up migrationDirectory
          | Some _ => ret err
          end);;
  match err with
  | Some e =>
      if fatal err then
        down migrationDirectory ;;;
        down_all (seed_dirs seeds) ;;;
        ret (Some (Stacktrace e))
      else ret None
  | None => ret None
  end.

(** *** [newPostgres] (postgres.go) and [NewSQL] *)

(** [pgxpool_Connect] is the outcome of [pgxpool.Connect] for a connection
    string. [databaseURL.String()] is evaluated before [SQLOpenFunc] is
    called, and panics on a nil [databaseURL]. *)
Definition newPostgres (pgxpool_Connect : string → option error)
    (dialect : string) (databaseURL : option URL) (config : Config)
  : outcome (pg * option error) :=
  let p := {| ph := "$"; url := None |} in
  match databaseURL with
  | None => Panicked
  | Some u =>
      match SQLOpenFunc config dialect (URLString u) with
      | None =>
          Returned ({| ph := ph p; url := databaseURL |},
                    pgxpool_Connect (URLString u))
      | Some e => Returned (p, Some e)
      end
  end.

Definition NewSQL (pgxpool_Connect : string → option error)
    (dialect : string) (databaseURL : option URL) (config : Config)
  : M (outcome (option SQL * option error)) :=
  if String.eqb dialect "postgres" || String.eqb dialect "redshift" then
    match newPostgres pgxpool_Connect dialect databaseURL config with
    | Panicked => ret Panicked
    | Returned (backend, Some e) => ret (Returned (None, Some (Stacktrace e)))
    | Returned (backend, None) =>
        match MigrationFS config with
        | Some dir =>
            if negb (String.eqb (MigrationDirectory config) "") then
              match databaseURL with
              | None => ret Panicked
              | Some u =>
                  err <- applyMigration (Host.isLocalhost (Host u))
                           dir dialect (MigrationTable config)
                           (MigrationDirectory config) (SeedDirectory config);;
                  match err with
                  | Some e => ret (Returned (None, Some (Stacktrace e)))
                  | None => ret (Returned (Some {| backend := backend |}, None))
                  end
              end
            else ret (Returned (Some {| backend := backend |}, None))
        | None => ret (Returned (Some {| backend := backend |}, None))
        end
    end
  else ret (Returned (None, Some (Trail KPlain "unrecognized dialect"))).

(** *** Reading a trace *)

(** The error an event carries, if it is a goose step. *)
Definition ev_err (ev : event) : option error :=
  match ev with
  | EvUpTo _ _ r | EvUpSeed _ r | EvUp _ r | EvDown _ r => r
  | EvReadDir _ _ | EvGetDBVersion _ => None
  end.

(** A forward step (migration, seed or catch-all) that failed with an
    error other than "no next version". *)
Definition step_failed (ev : event) : bool :=
  match ev with
  | EvUpTo _ _ r | EvUpSeed _ r | EvUp _ r => fatal r
  | _ => false
  end.

(** The steps the interleaving loop takes: a migration step on
    [migrationDirectory], or a seed taken from the map. *)
Definition loop_event (migrationDirectory : string) (seeds : gmap Z string)
    (ev : event) : Prop :=
  match ev with
  | EvUpTo d _ _ => d = migrationDirectory
  | EvUpSeed d _ => ∃ v, seeds !! v = Some d
  | _ => False
  end.

(** The shape of what the loop adds to the history: steps that did not
    fail, ended by the exit of the loop or by the one step that failed. The
    first index is [err] on entry, the last is [err] on exit. *)
Inductive loop_trace (migrationDirectory : string) (seeds : gmap Z string)
  : option error → list event → option error → Prop :=
  | loop_exit err : loop_trace migrationDirectory seeds err [] err
  | loop_step err0 ev evs err :
      loop_event migrationDirectory seeds ev →
      fatal (ev_err ev) = false →
      loop_trace migrationDirectory seeds (ev_err ev) evs err →
      loop_trace migrationDirectory seeds err0 (ev :: evs) err
  | loop_break err0 ev :
      loop_event migrationDirectory seeds ev →
      fatal (ev_err ev) = true →
      loop_trace migrationDirectory seeds err0 [ev] (ev_err ev).

(** The error of the last interleaved step in a trace, [d] if there is none. *)
Definition last_step_err (d : option error) (tr : list event) : option error :=
  foldl (λ acc ev, match ev with
                   | EvUpTo _ _ r | EvUpSeed _ r => r
                   | _ => acc
                   end) d tr.

Definition is_down (d : string) (ev : event) : Prop := ∃ r, ev = EvDown d r.

(** The rollback: [goose.Down] on the migration directory, then on every
    seed directory of the map, in some order. *)
Definition rollback_trace (mig : string) (seeds : gmap Z string)
    (evs : list event) : Prop :=
  ∃ r order downs,
    evs = EvDown mig r :: downs
    ∧ order ≡ₚ seed_dirs seeds
    ∧ Forall2 is_down order downs.

(** What follows the interleaving loop: the catch-all and the rollback. *)
Definition closing (mig : string) (seeds : gmap Z string)
    (err : option error) : M (option error) :=
  err <- (match err with
          | None => up mig
          | Some _ => ret err
          end);;
  match err with
  | Some e =>
      if fatal err then
        down mig ;;; down_all (seed_dirs seeds) ;;; ret (Some (Stacktrace e))
      else ret None
  | None => ret None
  end.

(** The seeds the orchestrator enumerates. *)
Definition seeds_found (localhost : bool) (dir : string → list DirEntry)
    (seedDirectory : string) : gmap Z string * Z :=
  if localhost && negb (String.eqb seedDirectory "")
  then scan_seeds seedDirectory (dir seedDirectory) else (∅, -1).

(** The two enumerations that open the run. *)
Definition enumeration (localhost : bool) (dir : string → list DirEntry)
    (mig seedDirectory : string) : list event :=
  EvReadDir mig (dir mig) ::
  (if localhost && negb (String.eqb seedDirectory "")
   then [EvReadDir seedDirectory (dir seedDirectory)] else []).

(** What [closing] adds to the history and returns, given [err] after the
    loop. *)
Definition closing_outcome (mig : string) (seeds : gmap Z string)
    (err res : option error) (evs : list event) : Prop :=
  match err with
  | None =>
      ∃ r rest, evs = EvUp mig r :: rest ∧
        match r with
        | Some e =>
            if fatal r
            then res = Some (Stacktrace e) ∧ rollback_trace mig seeds rest
            else res = None ∧ rest = []
        | None => res = None ∧ rest = []
        end
  | Some e =>
      if fatal err
      then res = Some (Stacktrace e) ∧ rollback_trace mig seeds evs
      else res = None ∧ evs = []
  end.

(** The events before the first goose step. *)
Definition prelude (localhost : bool) (dir : string → list DirEntry)
    (mig seedDirectory : string) : list event :=
  let pre := enumeration localhost dir mig seedDirectory in
  pre ++ [EvGetDBVersion (GetDBVersion goose pre)].

(** *** The plan of the loop when nothing fails *)

(** An event with its answer blanked: what was asked, not what came back. *)
Definition forget (ev : event) : event :=
  match ev with
  | EvReadDir d _ => EvReadDir d []
  | EvGetDBVersion _ => EvGetDBVersion 0
  | EvUpTo d v _ => EvUpTo d v None
  | EvUpSeed d _ => EvUpSeed d None
  | EvUp d _ => EvUp d None
  | EvDown d _ => EvDown d None
  end.

(** Turn [i] of the loop: the migration step to version [i + 1], then the
    seed in slot [i + minSeedVersion], if the map has one and it is newer
    than the recorded version. *)
Definition turn_plan (mig : string) (seeds : gmap Z string)
    (minSeedVersion version i : Z) : list event :=
  EvUpTo mig (i + 1) None ::
  match seeds !! wrap64 (i + minSeedVersion) with
  | Some seed =>
      if version <? wrap64 (i + minSeedVersion) then [EvUpSeed seed None] else []
  | None => []
  end.

(** The turns [0 .. steps - 1], in order. *)
Definition plan (mig : string) (seeds : gmap Z string)
    (minSeedVersion version steps : Z) : list event :=
  seqZ 0 steps ≫= turn_plan mig seeds minSeedVersion version.

(** *** The patterns and [Atoi] on examples *)

Example migrationFile_matches :
  migrationFile "12_users.sql" = Some "12"
  ∧ migrationFile "007_a.sql" = Some "007"
  ∧ migrationFile "12_.sql" = None
  ∧ migrationFile "12users.sql" = None
  ∧ migrationFile "_users.sql" = None
  ∧ migrationFile "12_users.sql.bak" = None.
Proof. split_and!; reflexivity. Qed.

Example seedFile_matches :
  seedFile "1_seedA" = Some "1" ∧ seedFile "20" = Some "20"
  ∧ seedFile "seed1" = None ∧ seedFile "" = None.
Proof. split_and!; reflexivity. Qed.

Example Atoi_range :
  Atoi "007" = (7, None)
  ∧ Atoi "9223372036854775807" = (MaxInt, None)
  ∧ Atoi "9223372036854775808"
    = (MaxInt, Some (Foreign "strconv.Atoi: value out of range")).
Proof. split_and!; reflexivity. Qed.

(** *** The loop and the run as a whole *)

Lemma interleave_trace mig seeds minSeed version max n i err0 h :
  ∃ err evs,
    interleave mig seeds minSeed version max n i err0 h = (err, h ++ evs)
    ∧ loop_trace mig seeds err0 evs err.
Proof.
  revert i err0 h. induction n as [|n IH]; intros i err0 h; simpl.
  { exists err0, []. rewrite app_nil_r. split; [done|constructor]. }
  destruct (i <? max).
  2:{ exists err0, []. rewrite app_nil_r. split; [done|constructor]. }
  unfold bind, upTo at 1, ret.
  set (r1 := UpTo goose h mig (i + 1)).
  set (ev1 := EvUpTo mig (i + 1) r1).
  destruct (fatal r1) eqn:F1.
  { exists r1, [ev1]. split; [done|]. by apply (loop_break _ _ _ ev1). }
  assert (∀ err evs,
    loop_trace mig seeds r1 evs err →
    loop_trace mig seeds err0 (ev1 :: evs) err) as Hcons.
  { intros err evs H. by apply (loop_step _ _ _ ev1). }
  assert (∃ err evs,
    interleave mig seeds minSeed version max n (i + 1) r1 (h ++ [ev1])
      = (err, h ++ evs) ∧ loop_trace mig seeds err0 evs err) as Hskip.
  { destruct (IH (i + 1) r1 (h ++ [ev1])) as (err & evs & E & T).
    exists err, (ev1 :: evs). rewrite E, <-app_assoc. eauto. }
  destruct (seeds !! wrap64 (i + minSeed)) as [seed|] eqn:Hseed; [|done].
  destruct (version <? wrap64 (i + minSeed)); [|done].
  unfold upSeed at 1.
  set (r2 := UpSeed goose (h ++ [ev1]) seed).
  set (ev2 := EvUpSeed seed r2).
  assert (loop_event mig seeds ev2) as L2 by (by exists (wrap64 (i + minSeed))).
  destruct (fatal r2) eqn:F2.
  { exists r2, [ev1; ev2]. rewrite <-app_assoc. split; [done|].
    apply Hcons. by apply (loop_break _ _ _ ev2). }
  destruct (IH (i + 1) r2 ((h ++ [ev1]) ++ [ev2])) as (err & evs & E & T).
  exists err, (ev1 :: ev2 :: evs). rewrite E, <-!app_assoc. split; [done|].
  apply Hcons. by apply (loop_step _ _ _ ev2).
Qed.

Lemma loop_trace_events mig seeds err0 evs err :
  loop_trace mig seeds err0 evs err → Forall (loop_event mig seeds) evs.
Proof. induction 1; repeat constructor; done. Qed.

(** A failed step ends the loop with its error. *)
Lemma loop_trace_failed mig seeds err0 evs err :
  loop_trace mig seeds err0 evs err →
  existsb step_failed evs = true → fatal err = true.
Proof.
  induction 1 as [err|err0 ev evs err Hev Hf _ IH|err0 ev Hev Hf]; simpl.
  - done.
  - intros [Hs|Hs]%orb_true_iff; [|by apply IH].
    destruct ev; simpl in *; congruence.
  - done.
Qed.

(** Conversely the loop only leaves with a fatal error through a failed step. *)
Lemma loop_trace_fatal mig seeds err0 evs err :
  loop_trace mig seeds err0 evs err →
  fatal err0 = false → fatal err = true → existsb step_failed evs = true.
Proof.
  induction 1 as [err|err0 ev evs err Hev Hf _ IH|err0 ev Hev Hf]; simpl.
  - congruence.
  - intros _ Hfe. rewrite IH by done. by rewrite orb_true_r.
  - intros _ _. destruct ev; simpl in *; try done; by rewrite Hf.
Qed.

(** On exit [err] is the error of the last step taken. *)
Lemma loop_trace_last mig seeds err0 evs err :
  loop_trace mig seeds err0 evs err → last_step_err err0 evs = err.
Proof.
  unfold last_step_err.
  induction 1 as [err|err0 ev evs err Hev Hf _ IH|err0 ev Hev Hf]; simpl.
  - done.
  - destruct ev; simpl in *; done.
  - destruct ev; simpl in *; done.
Qed.

Lemma down_all_trace ds h :
  ∃ evs, down_all ds h = (tt, h ++ evs) ∧ Forall2 is_down ds evs.
Proof.
  revert h. induction ds as [|d ds IH]; intros h; simpl.
  { exists []. rewrite app_nil_r. split; [done|constructor]. }
  unfold bind, down at 1.
  destruct (IH (h ++ [EvDown d (Down goose h d)])) as (evs & E & F).
  exists (EvDown d (Down goose h d) :: evs). rewrite E, <-app_assoc.
  split; [done|]. constructor; [by eexists|done].
Qed.

Lemma applyMigration_phases localhost dir dialect tbl mig sd :
  applyMigration localhost dir dialect tbl mig sd [] =
    let st := seeds_found localhost dir sd in
    let pre := enumeration localhost dir mig sd in
    let v := GetDBVersion goose pre in
    let h0 := pre ++ [EvGetDBVersion v] in
    let max := steps (scan_migrations (dir mig)) st.1 in
    let '(err, h1) :=
      if localhost
      then interleave mig st.1 st.2 v max (Z.to_nat max) 0 None h0
      else (None, h0) in
    closing mig st.1 err h1.
Proof.
  unfold applyMigration, seeds_found, enumeration, closing, bind, readDir,
    getDBVersion, ret.
  destruct localhost; simpl; [|done].
  destruct (negb (String.eqb sd "")); simpl.
  - by destruct (scan_seeds sd (dir sd)) as [seeds minSeed].
  - done.
Qed.

Lemma closing_cases mig seeds err h :
  ∃ res evs,
    closing mig seeds err h = (res, h ++ evs)
    ∧ closing_outcome mig seeds err res evs.
Proof.
  assert (∀ e h',
    ∃ evs, (down mig ;;; down_all (seed_dirs seeds) ;;;
              ret (Some (Stacktrace e))) h' = (Some (Stacktrace e), h' ++ evs)
           ∧ rollback_trace mig seeds evs) as Hrb.
  { intros e h'. unfold bind, down at 1, ret.
    destruct (down_all_trace (seed_dirs seeds)
                (h' ++ [EvDown mig (Down goose h' mig)])) as (evs & E & F).
    rewrite E, <-app_assoc. eexists; split; [done|].
    by exists (Down goose h' mig), (seed_dirs seeds), evs. }
  unfold closing, closing_outcome. destruct err as [e|]; unfold bind at 1.
  - unfold ret at 1. destruct (fatal (Some e)) eqn:F.
    + destruct (Hrb e h) as (evs & E & R). by exists (Some (Stacktrace e)), evs.
    + exists None, []. by rewrite app_nil_r.
  - unfold up at 1. set (r := Up goose h mig).
    destruct r as [e|] eqn:Hr.
    + destruct (fatal (Some e)) eqn:F.
      * destruct (Hrb e (h ++ [EvUp mig (Some e)])) as (evs & E & R).
        exists (Some (Stacktrace e)), (EvUp mig (Some e) :: evs).
        rewrite E, <-app_assoc. split; [done|].
        exists (Some e), evs. by rewrite F.
      * exists None, [EvUp mig (Some e)]. split; [done|].
        exists (Some e), []. by rewrite F.
    + exists None, [EvUp mig None]. split; [done|]. by exists None, [].
Qed.

Lemma applyMigration_run localhost dir dialect tbl mig sd :
  ∃ err1 loop_evs res tail,
    applyMigration localhost dir dialect tbl mig sd [] =
      (res, prelude localhost dir mig sd ++ loop_evs ++ tail)
    ∧ loop_trace mig (seeds_found localhost dir sd).1 None loop_evs err1
    ∧ (localhost = false → loop_evs = [])
    ∧ closing_outcome mig (seeds_found localhost dir sd).1 err1 res tail.
Proof.
  rewrite applyMigration_phases. cbv zeta. fold (prelude localhost dir mig sd).
  set (seeds := (seeds_found localhost dir sd).1).
  set (h0 := prelude localhost dir mig sd).
  destruct localhost.
  - match goal with |- context [interleave ?m ?s ?a ?b ?c ?n ?i ?e ?h] =>
      destruct (interleave_trace m s a b c n i e h) as (err1 & evs & E & T)
    end.
    rewrite E.
    destruct (closing_cases mig seeds err1 (h0 ++ evs)) as (res & tl & Ec & C).
    exists err1, evs, res, tl. rewrite Ec, <-app_assoc. done.
  - destruct (closing_cases mig seeds None h0) as (res & tl & Ec & C).
    exists None, [], res, tl. rewrite Ec. split_and!; [done|constructor|done|done].
Qed.

Lemma loop_trace_culprit mig seeds err0 evs err :
  loop_trace mig seeds err0 evs err →
  fatal err0 = false → fatal err = true →
  ∃ ev, ev ∈ evs ∧ step_failed ev = true ∧ ev_err ev = err.
Proof.
  induction 1 as [err|err0 ev evs err Hev Hf _ IH|err0 ev Hev Hf].
  - congruence.
  - intros _ Hfe. destruct (IH Hf Hfe) as (ev' & Hin & Hs & He).
    exists ev'. split_and!; [by right|done|done].
  - intros _ _. exists ev. split_and!; [by left| |done].
    destruct ev; simpl in *; done.
Qed.

Lemma rollback_trace_downs mig seeds rb ev :
  rollback_trace mig seeds rb → ev ∈ rb → ∃ d r, ev = EvDown d r.
Proof.
  intros (r & order & downs & -> & _ & F) [->|Hin]%elem_of_cons; [by eauto|].
  revert Hin. induction F as [|d ev' ds evs [r' ->] _ IH]; [by intros ?%elem_of_nil|].
  intros [->|Hin]%elem_of_cons; by eauto.
Qed.

Lemma rollback_trace_migration mig seeds rb :
  rollback_trace mig seeds rb → ∃ r, EvDown mig r ∈ rb.
Proof. intros (r & order & downs & -> & _). exists r. by left. Qed.

Lemma rollback_trace_seed mig seeds rb v d :
  rollback_trace mig seeds rb → seeds !! v = Some d → ∃ r, EvDown d r ∈ rb.
Proof.
  intros (r & order & downs & -> & P & F) Hv.
  assert (d ∈ order) as Hin.
  { rewrite P. unfold seed_dirs. apply list_elem_of_fmap.
    exists (v, d). split; [done|]. by apply elem_of_map_to_list. }
  clear P. induction F as [|d' ev' ds evs [r' ->] _ IH]; [by apply elem_of_nil in Hin|].
  apply elem_of_cons in Hin as [<-|Hin].
  - exists r'. right. by left.
  - destruct (IH Hin) as [r'' Hr]. exists r''.
    apply elem_of_cons in Hr as [Hr|Hr]; [rewrite Hr; by left|]. right. by right.
Qed.

Lemma prelude_quiet localhost dir mig sd ev :
  ev ∈ prelude localhost dir mig sd →
  (∃ d es, ev = EvReadDir d es) ∨ (∃ v, ev = EvGetDBVersion v).
Proof.
  unfold prelude, enumeration.
  destruct (localhost && negb (String.eqb sd "")); simpl;
    rewrite ?elem_of_cons, elem_of_nil; intuition eauto.
Qed.

Lemma fatal_Some e : fatal (Some e) = true ↔ e ≠ ErrNoNextVersion.
Proof. simpl. rewrite negb_true_iff, bool_decide_eq_false. done. Qed.

Lemma existsb_step_failed_elem evs :
  existsb step_failed evs = true ↔ ∃ ev, ev ∈ evs ∧ step_failed ev = true.
Proof.
  rewrite existsb_exists. split; intros (ev & Hin & Hs); exists ev;
    by rewrite ?list_elem_of_In in *.
Qed.

(** Every seed the run applies is a value of the map of seeds. *)
Lemma applyMigration_seeds_touched localhost dir dialect tbl mig sd d r :
  EvUpSeed d r ∈ (applyMigration localhost dir dialect tbl mig sd []).2 →
  ∃ v, (seeds_found localhost dir sd).1 !! v = Some d.
Proof.
  destruct (applyMigration_run localhost dir dialect tbl mig sd)
    as (err1 & evs & res & tl & -> & T & _ & C).
  cbn [snd]. rewrite !elem_of_app. intros [Hin|[Hin|Hin]].
  - apply prelude_quiet in Hin as [(? & ? & ?)|(? & ?)]; done.
  - apply loop_trace_events in T. rewrite Forall_forall in T.
    exact (T _ Hin).
  - exfalso. unfold closing_outcome in C. destruct err1 as [e|].
    + destruct (fatal (Some e)).
      * destruct C as [_ R]. destruct (rollback_trace_downs _ _ _ _ R Hin)
          as (? & ? & ?). done.
      * destruct C as [_ ->]. by apply elem_of_nil in Hin.
    + destruct C as (r0 & rest & -> & C).
      apply elem_of_cons in Hin as [?|Hin]; [done|].
      assert (rest = [] ∨ rollback_trace mig (seeds_found localhost dir sd).1 rest)
        as [->|R].
      { destruct r0 as [e|]; [destruct (fatal (Some e))|];
          destruct C as [_ C]; auto. }
      * by apply elem_of_nil in Hin.
      * destruct (rollback_trace_downs _ _ _ _ R Hin) as (? & ? & ?). done.
Qed.

(** A failed step makes the run end in the rollback and return the error
    of that step. *)
Lemma applyMigration_failure localhost dir dialect tbl mig sd res tr :
  applyMigration localhost dir dialect tbl mig sd [] = (res, tr) →
  existsb step_failed tr = true →
  ∃ e pre rb culprit,
    res = Some (Stacktrace e) ∧ e ≠ ErrNoNextVersion
    ∧ tr = pre ++ rb
    ∧ culprit ∈ pre ∧ step_failed culprit = true ∧ ev_err culprit = Some e
    ∧ rollback_trace mig (seeds_found localhost dir sd).1 rb
    ∧ (∀ d r, EvDown d r ∉ pre).
Proof.
  destruct (applyMigration_run localhost dir dialect tbl mig sd)
    as (err1 & evs & res' & tl & -> & T & _ & C).
  assert (existsb step_failed (prelude localhost dir mig sd) = false) as Hh0.
  { apply not_true_is_false. intros (ev & Hin & Hs)%existsb_step_failed_elem.
    apply prelude_quiet in Hin as [(? & ? & ->)|(? & ->)]; done. }
  assert (∀ d r, EvDown d r ∉ prelude localhost dir mig sd ++ evs) as Hnd.
  { intros d r [Hin|Hin]%elem_of_app.
    - apply prelude_quiet in Hin as [(? & ? & ?)|(? & ?)]; done.
    - apply loop_trace_events in T. rewrite Forall_forall in T.
      exact (T _ Hin). }
  generalize dependent (prelude localhost dir mig sd).
  generalize dependent (seeds_found localhost dir sd).1.
  intros seeds T C h0 Hh0 Hnd [= <- <-] Hfail.
  rewrite !existsb_app, Hh0 in Hfail. simpl in Hfail.
  unfold closing_outcome in C. destruct err1 as [e|].
  - destruct (fatal (Some e)) eqn:F.
    + destruct C as [-> R].
      destruct (loop_trace_culprit _ _ _ _ _ T eq_refl F) as (ev & Hin & Hs & He).
      exists e, (h0 ++ evs), tl, ev. rewrite app_assoc.
      split_and!; try done; [by apply fatal_Some|set_solver].
    + destruct C as [-> ->]. simpl in Hfail. rewrite orb_false_r in Hfail.
      apply (loop_trace_failed _ _ _ _ _ T) in Hfail. congruence.
  - destruct C as (r & rest & -> & C).
    destruct (existsb step_failed evs) eqn:Hevs.
    { by apply (loop_trace_failed _ _ _ _ _ T) in Hevs. }
    simpl in Hfail.
    assert (fatal r = true) as F.
    { destruct (fatal r) eqn:F; [done|]. simpl in Hfail.
      destruct r as [e|]; destruct C as [_ ->]; done. }
    destruct r as [e|]; [|done]. rewrite F in C. destruct C as [-> R].
    exists e, (h0 ++ evs ++ [EvUp mig (Some e)]), rest, (EvUp mig (Some e)).
    rewrite <-!app_assoc.
    split_and!; try done; [by apply fatal_Some|set_solver|].
    intros d r Hin. rewrite app_assoc in Hin.
    apply elem_of_app in Hin as [Hin|Hin]; [by apply Hnd in Hin|].
    apply elem_of_cons in Hin as [?|Hin]; [done|by apply elem_of_nil in Hin].
Qed.

Lemma interleave_plan mig seeds minSeed version max n i err0 h :
  max - i ≤ Z.of_nat n →
  ∃ evs,
    (interleave mig seeds minSeed version max n i err0 h).2 = h ++ evs
    ∧ (existsb step_failed evs = false →
       forget <$> evs
       = seqZ i (max - i) ≫= turn_plan mig seeds minSeed version).
Proof.
  revert i err0 h. induction n as [|n IH]; intros i err0 h Hn; simpl.
  { exists []. rewrite app_nil_r. split; [done|]. intros _.
    rewrite seqZ_nil by lia. done. }
  destruct (Z.ltb_spec i max) as [Hlt|Hge].
  2:{ exists []. rewrite app_nil_r. split; [done|]. intros _.
      rewrite seqZ_nil by lia. done. }
  rewrite (seqZ_cons i (max - i)) by lia.
  replace (Z.pred (max - i)) with (max - Z.succ i) by lia.
  replace (Z.succ i) with (i + 1) by lia.
  unfold bind at 1, upTo at 1, ret. cbn [mbind list_bind].
  unfold turn_plan at 1.
  set (r1 := UpTo goose h mig (i + 1)).
  destruct (fatal r1) eqn:F1.
  { exists [EvUpTo mig (i + 1) r1]. split; [done|]. simpl. by rewrite F1. }
  destruct (seeds !! wrap64 (i + minSeed)) as [seed|] eqn:Hseed.
  2:{ destruct (IH (i + 1) r1 (h ++ [EvUpTo mig (i + 1) r1]) ltac:(lia))
        as (evs & E & P).
      exists (EvUpTo mig (i + 1) r1 :: evs). rewrite E, <-app_assoc.
      split; [done|]. simpl. rewrite F1. simpl. intros Hok. f_equal. by apply P. }
  destruct (version <? wrap64 (i + minSeed)).
  2:{ destruct (IH (i + 1) r1 (h ++ [EvUpTo mig (i + 1) r1]) ltac:(lia))
        as (evs & E & P).
      exists (EvUpTo mig (i + 1) r1 :: evs). rewrite E, <-app_assoc.
      split; [done|]. simpl. rewrite F1. simpl. intros Hok. f_equal. by apply P. }
  unfold bind at 1, upSeed at 1.
  set (r2 := UpSeed goose (h ++ [EvUpTo mig (i + 1) r1]) seed).
  destruct (fatal r2) eqn:F2.
  { exists [EvUpTo mig (i + 1) r1; EvUpSeed seed r2]. rewrite <-app_assoc.
    split; [done|]. simpl. by rewrite F1, F2. }
  destruct (IH (i + 1) r2
              ((h ++ [EvUpTo mig (i + 1) r1]) ++ [EvUpSeed seed r2]) ltac:(lia))
    as (evs & E & P).
  exists (EvUpTo mig (i + 1) r1 :: EvUpSeed seed r2 :: evs).
  rewrite E, <-!app_assoc. split; [done|]. simpl. rewrite F1, F2. simpl.
  intros Hok. do 2 f_equal. by apply P.
Qed.

(** [NewSQL] leaves events only by running [applyMigration], and then
    hands out a backend exactly when [applyMigration] returned nil. *)
Lemma NewSQL_trace connect dialect databaseURL config out tr :
  NewSQL connect dialect databaseURL config [] = (out, tr) →
  tr ≠ [] →
  ∃ u dir res,
    databaseURL = Some u
    ∧ MigrationFS config = Some dir
    ∧ applyMigration (Host.isLocalhost (Host u)) dir dialect
        (MigrationTable config) (MigrationDirectory config)
        (SeedDirectory config) [] = (res, tr)
    ∧ match res with
      | Some e => out = Returned (None, Some (Stacktrace e))
      | None => ∃ db, out = Returned (Some db, None)
      end.
Proof.
  unfold NewSQL.
  destruct (String.eqb dialect "postgres" || String.eqb dialect "redshift");
    [|by intros [= <- <-]].
  destruct (newPostgres connect dialect databaseURL config)
    as [[backend [e|]]|]; [by intros [= <- <-]| |by intros [= <- <-]].
  destruct (MigrationFS config) as [dir|]; [|by intros [= <- <-]].
  destruct (negb (String.eqb (MigrationDirectory config) ""));
    [|by intros [= <- <-]].
  destruct databaseURL as [u|]; [|by intros [= <- <-]].
  unfold bind.
  destruct (applyMigration _ _ _ _ _ _ _) as [res tr'] eqn:E.
  destruct res as [e|]; intros [= <- <-] _; exists u, dir; eexists;
    (split_and!; [done|done|done|]); simpl; eauto.
Qed.

End Orchestrator.

(** *** The run depends on goose through its answers only *)

Lemma interleave_ext g1 g2 mig seeds minSeed version max n i err h :
  goose_agree g1 g2 →
  interleave g1 mig seeds minSeed version max n i err h
  = interleave g2 mig seeds minSeed version max n i err h.
Proof.
  intros (_ & HU & HS & _). revert i err h.
  induction n as [|n IH]; intros i err h; simpl; [done|].
  destruct (i <? max); [|done].
  unfold bind, upTo, upSeed. rewrite HU.
  destruct (fatal _); [done|].
  destruct (seeds !! _); [|by apply IH].
  destruct (version <? _); [|by apply IH].
  rewrite HS. destruct (fatal _); [done|]. apply IH.
Qed.

Lemma down_all_ext g1 g2 ds h :
  goose_agree g1 g2 → down_all g1 ds h = down_all g2 ds h.
Proof.
  intros (_ & _ & _ & _ & HD & _). revert h.
  induction ds as [|d ds IH]; intros h; simpl; [done|].
  unfold bind, down. rewrite HD. apply IH.
Qed.

Lemma closing_ext g1 g2 mig seeds err h :
  goose_agree g1 g2 → closing g1 mig seeds err h = closing g2 mig seeds err h.
Proof.
  intros Hg. pose proof Hg as (_ & _ & _ & HUp & HD & _).
  unfold closing, bind, up, down, ret. destruct err as [e|].
  - destruct (fatal (Some e)); [|done].
    by rewrite HD, (down_all_ext g1 g2).
  - rewrite HUp. destruct (Up g2 h mig) as [e|]; [|done].
    destruct (fatal (Some e)); [|done].
    by rewrite HD, (down_all_ext g1 g2).
Qed.

Lemma applyMigration_ext g1 g2 localhost dir dialect tbl mig sd :
  goose_agree g1 g2 →
  applyMigration g1 localhost dir dialect tbl mig sd []
  = applyMigration g2 localhost dir dialect tbl mig sd [].
Proof.
  intros Hg. pose proof Hg as (HV & _ & _ & _ & _ & HI).
  rewrite !applyMigration_phases. cbv zeta. unfold steps. rewrite HV, HI.
  destruct localhost; [|by apply closing_ext].
  rewrite (interleave_ext g1 g2) by done.
  destruct (interleave g2 _ _ _ _ _ _ _ _ _) as [err h2].
  by apply closing_ext.
Qed.

(** *** Properties of the orchestrator *)

(** C2 as stated fails. With migrations 1, 2 and 3 of which the third
    fails, the steps to versions 1 and 2 went through, and the rollback is
    one [goose.Down] on the migration directory: it takes back the latest
    migration, not every migration of the run. *)
Lemma one_Down_for_two_migrations :
  ¬ (∀ g connect dialect databaseURL config out tr,
       NewSQL g connect dialect databaseURL config [] = (out, tr) →
       existsb step_failed tr = true →
       (length (migrated (MigrationDirectory config) tr)
        ≤ downs_on (MigrationDirectory config) tr)%nat).
Proof.
  intros H.
  specialize (H (goose_fail_at 3) (λ _, None) "postgres"
                (Some (example_url "localhost:5432")) example_config _ _ eq_refl).
  vm_compute in H. specialize (H eq_refl).
  by repeat match type of H with (S _ <= _)%nat => apply le_S_n in H end;
    inversion H.
Qed.

(** C2, amended. Whenever a migration step, a seed step or the catch-all
    fails with an error other than "no next version", the run ends with the
    rollback, and the rollback is all the [goose.Down] calls of the run:
    one on the migration directory and then one on every seed directory of
    the map, which holds every seed that was applied. The error of the
    failed step is what [applyMigration] returns, and [NewSQL] returns it
    with a nil backend. *)
Theorem migration_failure_rolls_back g connect dialect databaseURL config out tr :
  NewSQL g connect dialect databaseURL config [] = (out, tr) →
  existsb step_failed tr = true →
  ∃ u e pre rb culprit dir,
    databaseURL = Some u
    ∧ out = Returned (None, Some (Stacktrace (Stacktrace e)))
    ∧ e ≠ ErrNoNextVersion
    ∧ culprit ∈ pre ∧ step_failed culprit = true ∧ ev_err culprit = Some e
    ∧ tr = pre ++ rb
    ∧ (∀ d r, EvDown d r ∉ pre)
    ∧ MigrationFS config = Some dir
    ∧ rollback_trace (MigrationDirectory config)
        (seeds_found (Host.isLocalhost (Host u)) dir
           (SeedDirectory config)).1 rb
    ∧ (∃ r, EvDown (MigrationDirectory config) r ∈ rb)
    ∧ (∀ d r, EvUpSeed d r ∈ tr → ∃ r', EvDown d r' ∈ rb).
Proof.
  intros Hrun Hfail.
  assert (tr ≠ []) as Hne by (by intros ->).
  destruct (NewSQL_trace _ _ _ _ _ _ _ Hrun Hne)
    as (u & dir & res & -> & Hfs & Happ & Hout).
  destruct (applyMigration_failure _ _ _ _ _ _ _ _ _ Happ Hfail)
    as (e & pre & rb & culprit & -> & Hne' & -> & Hin & Hs & He & R & Hnd).
  exists u, e, pre, rb, culprit, dir. split_and!; try done.
  - by eapply rollback_trace_migration.
  - intros d r Hd.
    destruct (applyMigration_seeds_touched g
                (Host.isLocalhost (Host u)) dir dialect
                (MigrationTable config) (MigrationDirectory config)
                (SeedDirectory config) d r) as [v Hv].
    { by rewrite Happ. }
    by eapply rollback_trace_seed.
Qed.

Lemma migration_failure_rolls_back_witness :
  let run := NewSQL (goose_fail_at 3) (λ _, None) "postgres"
               (Some (example_url "localhost:5432")) example_config [] in
  ∃ u e pre rb culprit dir,
    Some (example_url "localhost:5432") = Some u
    ∧ run.1 = Returned (None, Some (Stacktrace (Stacktrace e)))
    ∧ e ≠ ErrNoNextVersion
    ∧ culprit ∈ pre ∧ step_failed culprit = true ∧ ev_err culprit = Some e
    ∧ run.2 = pre ++ rb
    ∧ (∀ d r, EvDown d r ∉ pre)
    ∧ MigrationFS example_config = Some dir
    ∧ rollback_trace (MigrationDirectory example_config)
        (seeds_found (Host.isLocalhost (Host u)) dir
           (SeedDirectory example_config)).1 rb
    ∧ (∃ r, EvDown (MigrationDirectory example_config) r ∈ rb)
    ∧ (∀ d r, EvUpSeed d r ∈ run.2 → ∃ r', EvDown d r' ∈ rb).
Proof.
  intros run.
  apply (migration_failure_rolls_back (goose_fail_at 3) (λ _, None) "postgres"
           (Some (example_url "localhost:5432")) example_config run.1 run.2).
  - vm_compute. reflexivity.
  - vm_compute. reflexivity.
Defined.

(** C8. Off a local host the run is: enumerate the migrations, read the
    version, run the catch-all, and roll the migration directory back if
    the catch-all failed. No seed directory is read and no seed is applied,
    whatever [seedDirectory] holds. *)
Theorem non_local_host_runs_catch_all_only g dir dialect tbl mig sd :
  let h1 := [EvReadDir mig (dir mig)] in
  let h2 := h1 ++ [EvGetDBVersion (GetDBVersion g h1)] in
  let r := Up g h2 mig in
  let h3 := h2 ++ [EvUp mig r] in
  applyMigration g false dir dialect tbl mig sd [] =
    match r with
    | Some e =>
        if fatal r
        then (Some (Stacktrace e), h3 ++ [EvDown mig (Down g h3 mig)])
        else (None, h3)
    | None => (None, h3)
    end
  ∧ ∀ d a, EvUpSeed d a ∉ (applyMigration g false dir dialect tbl mig sd []).2.
Proof.
  intros h1 h2 r h3.
  assert (applyMigration g false dir dialect tbl mig sd [] =
    match r with
    | Some e =>
        if fatal r
        then (Some (Stacktrace e), h3 ++ [EvDown mig (Down g h3 mig)])
        else (None, h3)
    | None => (None, h3)
    end) as E.
  { rewrite applyMigration_phases. subst h3 r h2 h1. cbv zeta.
    unfold closing, bind, up, down, ret, seeds_found, enumeration. simpl.
    destruct (Up g _ mig) as [e|]; [|done].
    destruct (fatal (Some e)); [|done].
    unfold seed_dirs. by rewrite map_to_list_empty. }
  split; [done|]. intros d a. rewrite E. subst h3 r h2 h1. cbv zeta.
  destruct (Up g _ mig) as [e|]; [destruct (fatal (Some e))|]; simpl;
    intros Hin;
    repeat (apply elem_of_cons in Hin as [Hin|Hin]; [done|]);
    by apply elem_of_nil in Hin.
Qed.

(** C3 as stated fails. The maximum is taken in [float64], which holds
    the whole numbers below [2^53] only: a migration file numbered
    [2^53 + 1] gives [2^53] turns, one less than the maximum. *)
Lemma steps_rounded_by_float64 :
  ¬ (∀ g entries (seeds : gmap Z string),
       steps g (scan_migrations entries) seeds
       = scan_migrations entries `max` Z.of_nat (size seeds)).
Proof.
  intros H.
  specialize (H goose_ok [file "9007199254740993_big.sql"] ∅).
  vm_compute in H. discriminate H.
Qed.

(** C3, amended. The loop runs [steps = max(maxMigrationVersion, len(seeds))]
    turns where both numbers are below [2^53] (there the detour through
    [float64] is exact); as long as no step fails, turn [i] is the
    migration step to version [i + 1] followed by the seed in slot
    [i + minSeedVersion]. With migrations 1, 2, 3 and seeds 1 and 2 on a
    local host at version 0 the run is: migration 1, seedA, migration 2,
    seedB, migration 3, catch-all. *)
Theorem interleaving_pairs_by_index g :
  (∀ m (seeds : gmap Z string),
     0 ≤ m < 2 ^ 53 → Z.of_nat (size seeds) < 2 ^ 53 →
     steps g m seeds = m `max` Z.of_nat (size seeds))
  ∧ (∀ mig seeds minSeed version max h,
       ∃ evs,
         (interleave g mig seeds minSeed version max (Z.to_nat max) 0 None h).2
         = h ++ evs
         ∧ (existsb step_failed evs = false →
            forget <$> evs = plan mig seeds minSeed version max))
  ∧ ((∀ h, GetDBVersion g h = 0) →
     (∀ h d v, UpTo g h d v = None) →
     (∀ h d, UpSeed g h d = None) →
     (∀ h d, fatal (Up g h d) = false) →
     ∃ r,
       applyMigration g true example_fs "postgres" "goose_db_version"
         "migrations" "seeds" [] =
       (None,
        [EvReadDir "migrations" (example_fs "migrations");
         EvReadDir "seeds" (example_fs "seeds");
         EvGetDBVersion 0;
         EvUpTo "migrations" 1 None;
         EvUpSeed "seeds/1_seedA" None;
         EvUpTo "migrations" 2 None;
         EvUpSeed "seeds/2_seedB" None;
         EvUpTo "migrations" 3 None;
         EvUp "migrations" r])).
Proof.
  split_and!.
  - intros m seeds Hm Hs. unfold steps. apply max_via_float64; lia.
  - intros mig seeds minSeed version max h.
    destruct (interleave_plan g mig seeds minSeed version max (Z.to_nat max)
                0 None h ltac:(lia)) as (evs & E & P).
    exists evs. split; [done|]. intros Hok. rewrite (P Hok).
    unfold plan. by rewrite Z.sub_0_r.
  - intros HV HU HS HUp.
    set (g' := {| GetDBVersion := λ _, 0;
                  UpTo := λ _ _ _, None;
                  UpSeed := λ _ _, None;
                  Up := Up g;
                  Down := Down g;
                  indefinite := indefinite g |}).
    rewrite (applyMigration_ext g g') by done.
    rewrite applyMigration_phases. cbv zeta.
    match goal with |- context [interleave ?a ?b ?c ?d ?e ?f ?n ?i ?x ?h] =>
      let t := constr:(interleave a b c d e f n i x h) in
      let v := eval vm_compute in t in
      change t with v
    end.
    unfold closing, bind, up, ret. cbn [Up g'].
    match goal with |- context [Up g ?h ?d] =>
      exists (Up g h d); pose proof (HUp h d) as F; destruct (Up g h d) as [e|]
    end.
    + rewrite F. vm_compute. reflexivity.
    + vm_compute. reflexivity.
Qed.

Lemma interleaving_pairs_by_index_witness :
  steps goose_ok 3 {[1 := "seeds/1_seedA"; 2 := "seeds/2_seedB"]}
  = 3 `max` Z.of_nat (size ({[1 := "seeds/1_seedA"; 2 := "seeds/2_seedB"]}
                              : gmap Z string))
  ∧ ∃ r,
      applyMigration goose_ok true example_fs "postgres" "goose_db_version"
        "migrations" "seeds" [] =
      (None,
       [EvReadDir "migrations" (example_fs "migrations");
        EvReadDir "seeds" (example_fs "seeds");
        EvGetDBVersion 0;
        EvUpTo "migrations" 1 None;
        EvUpSeed "seeds/1_seedA" None;
        EvUpTo "migrations" 2 None;
        EvUpSeed "seeds/2_seedB" None;
        EvUpTo "migrations" 3 None;
        EvUp "migrations" r]).
Proof.
  destruct (interleaving_pairs_by_index goose_ok) as (Hsteps & _ & Hrun).
  split.
  - apply (Hsteps 3 {[1 := "seeds/1_seedA"; 2 := "seeds/2_seedB"]}).
    + lia.
    + vm_compute. reflexivity.
  - apply Hrun; reflexivity.
Defined.

(** C6 as stated fails. The catch-all is not run in every run whose
    interleaved steps did not fail: on a database that answers "no next version" to the last
    migration step, [err] is not nil after the loop and [goose.Up] is
    skipped. *)
Lemma catch_all_skipped_after_no_next_version :
  ¬ (∀ g localhost dir dialect tbl mig sd,
       existsb interleaved_step_failed
         (applyMigration g localhost dir dialect tbl mig sd []).2 = false →
       ∃ r, EvUp mig r ∈ (applyMigration g localhost dir dialect tbl mig sd []).2).
Proof.
  intros H.
  destruct (H goose_converged true example_fs "postgres" "goose_db_version"
              "migrations" "seeds") as [r Hin].
  { vm_compute. reflexivity. }
  revert Hin.
  replace (applyMigration goose_converged true example_fs "postgres"
             "goose_db_version" "migrations" "seeds" []).2
    with [EvReadDir "migrations" (example_fs "migrations");
          EvReadDir "seeds" (example_fs "seeds");
          EvGetDBVersion 3;
          EvUpTo "migrations" 1 (Some ErrNoNextVersion);
          EvUpTo "migrations" 2 (Some ErrNoNextVersion);
          EvUpTo "migrations" 3 (Some ErrNoNextVersion)]
    by (vm_compute; reflexivity).
  intros Hin.
  repeat (apply elem_of_cons in Hin as [Hin|Hin]; [done|]).
  by apply elem_of_nil in Hin.
Qed.

(** C6, amended. The catch-all [goose.Up] on the migration directory is run
    exactly when [err] is nil after the loop: when the last interleaved
    step of the run (if there is one) returned nil. *)
Theorem catch_all_runs_iff_loop_ended_nil g localhost dir dialect tbl mig sd :
  (∃ r, EvUp mig r ∈ (applyMigration g localhost dir dialect tbl mig sd []).2)
  ↔ last_step_err None (applyMigration g localhost dir dialect tbl mig sd []).2
    = None.
Proof.
  destruct (applyMigration_run g localhost dir dialect tbl mig sd)
    as (err1 & evs & res & tl & -> & T & _ & C).
  cbn [snd].
  assert (last_step_err None (prelude g localhost dir mig sd ++ evs ++ tl) = err1)
    as ->.
  { unfold last_step_err. rewrite !foldl_app.
    fold (last_step_err None (prelude g localhost dir mig sd)).
    replace (last_step_err None (prelude g localhost dir mig sd)) with (@None error).
    2:{ unfold prelude, enumeration, last_step_err.
        by destruct (localhost && negb (String.eqb sd "")). }
    fold (last_step_err None evs). rewrite (loop_trace_last _ _ _ _ _ T).
    unfold closing_outcome in C. destruct err1 as [e|].
    - destruct (fatal (Some e)).
      + destruct C as [_ (r & order & downs & -> & _ & F)]. simpl.
        clear -F. induction F as [|d ev ds evs' [r' ->] _ IH]; [done|]. done.
      + by destruct C as [_ ->].
    - destruct C as (r & rest & -> & C). simpl.
      assert (rest = [] ∨ rollback_trace mig (seeds_found localhost dir sd).1 rest)
        as [->|(r0 & order & downs & -> & _ & F)]; [|done|].
      { destruct r as [e|]; [destruct (fatal (Some e))|];
          destruct C as [_ C]; auto. }
      simpl. clear -F. induction F as [|d ev ds evs' [r' ->] _ IH]; done. }
  assert (∀ r, EvUp mig r ∉ prelude g localhost dir mig sd ++ evs) as Hno.
  { intros r [Hin|Hin]%elem_of_app.
    - apply prelude_quiet in Hin as [(? & ? & ?)|(? & ?)]; done.
    - apply loop_trace_events in T. rewrite Forall_forall in T.
      exact (T _ Hin). }
  unfold closing_outcome in C. split.
  - intros [r Hin]. rewrite app_assoc in Hin.
    apply elem_of_app in Hin as [Hin|Hin]; [by apply Hno in Hin|].
    destruct err1 as [e|]; [exfalso|done].
    destruct (fatal (Some e)).
    + destruct C as [_ R].
      destruct (rollback_trace_downs _ _ _ _ R Hin) as (? & ? & ?). done.
    + destruct C as [_ ->]. by apply elem_of_nil in Hin.
  - intros ->. destruct C as (r & rest & -> & _). exists r.
    rewrite !elem_of_app. right. right. by left.
Qed.

(** C10. A host is local exactly when the text before its first colon is
    one of [localhost], [host.docker.internal] and [db]; so each of the
    three names followed by a colon and any port is local, and [127.0.0.1]
    is not. [NewSQL] hands this verdict to [applyMigration]: for any other
    host no seed is applied. *)
Theorem isLocalhost_allow_list host :
  (Host.isLocalhost host = true ↔ Host.first_segment host ∈ Host.local_names)
  ∧ (∀ name port,
       name ∈ Host.local_names →
       Host.isLocalhost (name +:+ ":" +:+ port) = true)
  ∧ Host.isLocalhost "127.0.0.1" = false
  ∧ (∀ g connect dialect databaseURL config d a,
       Host databaseURL = host →
       Host.first_segment host ∉ Host.local_names →
       EvUpSeed d a ∉ (NewSQL g connect dialect (Some databaseURL) config []).2).
Proof.
  split_and!.
  - apply Host.isLocalhost_first_segment.
  - intros name port Hname. apply Host.isLocalhost_first_segment.
    rewrite Host.first_segment_port; [done|].
    unfold Host.local_names in Hname.
    repeat (apply elem_of_cons in Hname as [->|Hname]; [reflexivity|]).
    by apply elem_of_nil in Hname.
  - reflexivity.
  - intros g connect dialect databaseURL config d a <- Hnot Hin.
    destruct (NewSQL g connect dialect (Some databaseURL) config [])
      as [out tr] eqn:E.
    cbn [snd] in Hin.
    assert (tr ≠ []) as Hne by (intros ->; by apply elem_of_nil in Hin).
    destruct (NewSQL_trace _ _ _ _ _ _ _ E Hne)
      as (u & dir & res & [= <-] & _ & Happ & _).
    assert (Host.isLocalhost (Host databaseURL) = false) as Hl.
    { apply not_true_is_false. by rewrite Host.isLocalhost_first_segment. }
    rewrite Hl in Happ.
    destruct (applyMigration_seeds_touched g false dir dialect
                (MigrationTable config) (MigrationDirectory config)
                (SeedDirectory config) d a) as [v Hv].
    { by rewrite Happ. }
    unfold seeds_found in Hv. simpl in Hv. by rewrite lookup_empty in Hv.
Qed.

Lemma isLocalhost_allow_list_witness :
  Host.isLocalhost ("host.docker.internal" +:+ ":" +:+ "5432") = true
  ∧ ∀ d a,
      EvUpSeed d a ∉
        (NewSQL goose_ok (λ _, None) "postgres"
           (Some (example_url "db.internal:5432")) example_config []).2.
Proof.
  split.
  - apply (proj1 (proj2 (isLocalhost_allow_list ""))).
    unfold Host.local_names. apply elem_of_cons. right. by left.
  - intros d a.
    apply (proj2 (proj2 (proj2 (isLocalhost_allow_list "db.internal:5432")))).
    + reflexivity.
    + vm_compute. intros H.
      repeat (apply elem_of_cons in H as [H|H]; [discriminate H|]).
      by apply elem_of_nil in H.
Defined.

End Migration.

(** ** The error mapping of the postgres transaction (postgres.go) *)

Module Postgres.

(** [trail.NewErrorNotFound], [trail.NewErrorNoContent]: the constructor
    used fixes the kind of the error. *)
Definition NewErrorNotFound (msg : string) : error := Trail KNotFound msg.
Definition NewErrorNoContent (msg : string) : error := Trail KNoContent msg.

(** ErrNotFound is returned for get ops with no results *)
Definition ErrNotFound : error :=
  NewErrorNotFound "the requested item does not exist".

(** ErrNoResults is return for list ops with no results *)
Definition ErrNoResults : error :=
  NewErrorNoContent "there are no items matching your search criteria".

(** ErrConflict is return for write ops with conflict *)
Definition ErrConflict : error :=
  NewErrorNoContent "there was a conflict processing your request".

(** [trail.IsError(err, target)]: [target] is [err] or is under its
    annotations. *)
Fixpoint IsError (err target : error) : bool :=
  bool_decide (err = target)
  || match err with
     | Stacktrace e | TeaError e => IsError e target
     | _ => false
     end.

(** [trail.AsError(err, &icv)] for [icv *pgconn.PgError]: the SQLSTATE of
    the first [PgError] in the chain. *)
Fixpoint AsPgError (err : error) : option string :=
  match err with
  | PgError code => Some code
  | Stacktrace e | TeaError e => AsPgError e
  | _ => None
  end.

(** [pgerrcode.IsIntegrityConstraintViolation]: the codes of class 23. *)
Definition IsIntegrityConstraintViolation (code : string) : bool :=
  bool_decide (code ∈ ["23000"; "23001"; "23502"; "23503"; "23505";
                       "23514"; "23P01"]).

(** [pgTxn.Get], given what [pgxscan.Get] returned. *)
Definition Get (scanned : option error) : option error :=
  match scanned with
  | Some err => if IsError err ErrNoRows then Some ErrNotFound else scanned
  | None => None
  end.

(** [pgTxn.List], given what [pgxscan.Select] returned and whether the
    destination, with all pointers followed, is nil afterwards. *)
Definition List (scanned : option error) (dest_is_nil : bool) : option error :=
  match scanned with
  | None => if dest_is_nil then Some ErrNoResults else None
  | Some _ => scanned
  end.

(** [pgTxn.Exec], given what [txx.Exec] returned. *)
Definition Exec (executed : option error) : option error :=
  match executed with
  | Some err =>
      match AsPgError err with
      | Some code =>
          if IsIntegrityConstraintViolation code then Some ErrConflict
          else executed
      | None => executed
      end
  | None => None
  end.

(** The three errors the conditions are mapped to. *)
Definition sentinels : list error := [ErrNotFound; ErrNoResults; ErrConflict].

(** C5. The three conditions come out as the three sentinels:
    [pgx.ErrNoRows] from a get, bare or annotated, as [ErrNotFound]; a
    listing that leaves the destination nil as [ErrNoResults]; a [PgError]
    of the integrity class from a write, bare or annotated, as
    [ErrConflict]. The three are pairwise different and [trail.IsError]
    tells each from the other two. None of them carries the driver's
    error, and neither [pgx.ErrNoRows] nor a [PgError] of the integrity
    class is in what [Get] and [Exec] return. *)
Theorem three_conditions_three_errors :
  (∀ err, IsError err ErrNoRows = true → Get (Some err) = Some ErrNotFound)
  ∧ List None true = Some ErrNoResults
  ∧ (∀ err code,
       AsPgError err = Some code →
       IsIntegrityConstraintViolation code = true →
       Exec (Some err) = Some ErrConflict)
  ∧ NoDup sentinels
  ∧ (∀ a b, a ∈ sentinels → b ∈ sentinels → IsError a b = true ↔ a = b)
  ∧ (∀ a, a ∈ sentinels → IsError a ErrNoRows = false ∧ AsPgError a = None)
  ∧ (∀ scanned out, Get scanned = Some out → IsError out ErrNoRows = false)
  ∧ (∀ executed out code,
       Exec executed = Some out → AsPgError out = Some code →
       IsIntegrityConstraintViolation code = false).
Proof.
  split_and!.
  - intros err H. unfold Get. by rewrite H.
  - reflexivity.
  - intros err code H1 H2. unfold Exec. by rewrite H1, H2.
  - unfold sentinels.
    repeat (apply NoDup_cons; split);
      [| |by intros ?%elem_of_nil|apply NoDup_nil_2];
      intros H; repeat (apply elem_of_cons in H as [H|H]; [discriminate H|]);
      by apply elem_of_nil in H.
  - intros a b Ha Hb. unfold sentinels in Ha, Hb.
    repeat (apply elem_of_cons in Ha as [->|Ha]);
    repeat (apply elem_of_cons in Hb as [->|Hb]);
    try (by apply elem_of_nil in Ha); try (by apply elem_of_nil in Hb);
    (split; [by intros [=]|by intros [=]]) || done.
  - intros a Ha. unfold sentinels in Ha.
    repeat (apply elem_of_cons in Ha as [->|Ha]); try done.
    by apply elem_of_nil in Ha.
  - intros scanned out. unfold Get. destruct scanned as [err|]; [|done].
    destruct (IsError err ErrNoRows) eqn:E; by intros [= <-].
  - intros executed out code. unfold Exec.
    destruct executed as [err|]; [|done].
    destruct (AsPgError err) as [code'|] eqn:E.
    + destruct (IsIntegrityConstraintViolation code') eqn:E'.
      * by intros [= <-].
      * intros [= <-]. rewrite E. by intros [= <-].
    + intros [= <-]. by rewrite E.
Qed.

End Postgres.

(** ** [Txn.List], the read path of a transaction (package ark) *)

Module Txn.

(** A destination [v] is a pointer; [loc] names what it points to. *)
Abbreviation loc := nat (only parsing).

(** [view{Key: key, Value: v}]: the view keeps the pointer, not a copy. *)
Record view : Type := { Key : string; Value : loc }.

Definition BatchExhausted : error := Trail KPlain "read batch size exhausted".

Section State.
Context {Table Opts Val : Type}.

(** What a transaction can reach: its [err] field, the shared cache, the
    buffered channel [views] with its capacity, the calls the backend has
    received, and the memory the destinations point into. *)
Record world : Type := {
  tx_err : option error;
  cache : gmap string Val;
  views : list view;
  views_cap : nat;
  backend_calls : list (Table * Opts);
  heap : loc → Val
}.

End State.

Arguments world : clear implicits.

(** *** A small world for the examples *)

Definition example_backend
    (_ : list (string * string)) (table : string) (_ : list string)
    (_ : string) : option error * list string :=
  (None, ["row of " +:+ table]).

Definition example_copy (src _ : list string) : option error * list string :=
  (None, src).

(** A transaction whose queue of capacity 1 holds one view. *)
Definition full_tx (err : option error) (cached : gmap string (list string))
  : world string string (list string) :=
  {| tx_err := err; cache := cached;
     views := [{| Key := "earlier"; Value := 0%nat |}]; views_cap := 1;
     backend_calls := []; heap := λ _, [] |}.

Section Read.
Context {Table Opts Val : Type}.

#[local] Abbreviation W := (world Table Opts Val).

(** The collaborators: the fingerprint of the query options
    ([fmt.Sprintf("%s", db.QueryWith(opts).CacheKey)]), [db.Copy], and the
    backend's [List], which may answer by what it was asked before. The
    last two return their error and what the destination holds afterwards. *)
Context (CacheKey : Opts → string).
Context (Copy : Val → Val → option error * Val).
Context (backend_List :
  list (Table * Opts) → Table → Val → Opts → option error * Val).

(** [tx.views <- x] under [select] with a [default]: the send goes through
    if the buffer has room, and is given up otherwise. No receiver runs
    during the call. *)
Definition try_send (w : W) (x : view) : option W :=
  if (length (views w) <? views_cap w)%nat
  then Some {| tx_err := tx_err w; cache := cache w;
               views := views w ++ [x]; views_cap := views_cap w;
               backend_calls := backend_calls w; heap := heap w |}
  else None.

Definition store (w : W) (v : loc) (x : Val) : W :=
  {| tx_err := tx_err w; cache := cache w; views := views w;
     views_cap := views_cap w; backend_calls := backend_calls w;
     heap := <[v := x]> (heap w) |}.

Definition call_backend (w : W) (table : Table) (opts : Opts) : W :=
  {| tx_err := tx_err w; cache := cache w; views := views w;
     views_cap := views_cap w;
     backend_calls := backend_calls w ++ [(table, opts)]; heap := heap w |}.

Definition List (tx : W) (table : Table) (v : loc) (opts : Opts)
  : option error * W :=
  match tx_err tx with
  | Some e => (Some (TeaError e), tx)
  | None =>
      let key := CacheKey opts in
      match cache tx !! key with
      | Some cv =>
          let '(err, dst) := Copy cv (heap tx v) in
          (err, store tx v dst)
      | None =>
          let '(err, dst) :=
            backend_List (backend_calls tx) table (heap tx v) opts in
          let tx := store (call_backend tx table opts) v dst in
          match err with
          | Some e => (Some (TeaError e), tx)
          | None =>
              match try_send tx {| Key := key; Value := v |} with
              | Some tx' => (None, tx')
              | None => (Some BatchExhausted, tx)
              end
          end
      end
  end.

(** A sequence of [List] calls on one transaction. *)
Fixpoint Lists (tx : W) (reqs : list (Table * loc * Opts))
  : list (option error) * W :=
  match reqs with
  | [] => ([], tx)
  | (table, v, opts) :: reqs' =>
      let '(err, tx') := List tx table v opts in
      let '(errs, tx'') := Lists tx' reqs' in
      (err :: errs, tx'')
  end.

(** The pending-view queue is at capacity. *)
Definition full (tx : W) : Prop := (views_cap tx ≤ length (views tx))%nat.

(** C4, amended. Once the transaction holds an error, [List] returns
    [tea.Error] of that error, and nothing else happens: the backend, the
    cache, the queue and the destination are as before. So it is for every
    later [List] on the transaction. *)
Theorem recorded_error_short_circuits_List tx e :
  tx_err tx = Some e →
  (∀ table v opts, List tx table v opts = (Some (TeaError e), tx))
  ∧ (∀ reqs, Lists tx reqs = (replicate (length reqs) (Some (TeaError e)), tx)).
Proof.
  intros He.
  assert (∀ table v opts, List tx table v opts = (Some (TeaError e), tx)) as H1.
  { intros table v opts. unfold List. by rewrite He. }
  split; [done|].
  induction reqs as [|[[table v] opts] reqs IH]; simpl; [done|].
  by rewrite H1, IH.
Qed.

(** C9. On a transaction without error, when the cache holds a value under
    the fingerprint of the query, [List] is [db.Copy] of that value into
    the destination: it returns what [db.Copy] returns, the destination
    holds what [db.Copy] put there (the cached value itself when [db.Copy]
    hands its source over), every other destination is as before, the
    backend gets no call and the queue no view. *)
Theorem cache_hit_copies_without_backend tx table v opts cv :
  tx_err tx = None →
  cache tx !! CacheKey opts = Some cv →
  List tx table v opts
  = ((Copy cv (heap tx v)).1, store tx v (Copy cv (heap tx v)).2)
  ∧ heap (List tx table v opts).2 v = (Copy cv (heap tx v)).2
  ∧ ((Copy cv (heap tx v)).2 = cv → heap (List tx table v opts).2 v = cv)
  ∧ (∀ v', v' ≠ v → heap (List tx table v opts).2 v' = heap tx v')
  ∧ backend_calls (List tx table v opts).2 = backend_calls tx
  ∧ views (List tx table v opts).2 = views tx
  ∧ cache (List tx table v opts).2 = cache tx.
Proof.
  intros He Hc.
  assert (List tx table v opts
          = ((Copy cv (heap tx v)).1, store tx v (Copy cv (heap tx v)).2)) as E.
  { unfold List. rewrite He, Hc. by destruct (Copy cv (heap tx v)). }
  rewrite E. cbn [fst snd store heap backend_calls views cache].
  split_and!; try done.
  - by rewrite fn_lookup_insert.
  - intros H. by rewrite fn_lookup_insert.
  - intros v' Hv'. by rewrite fn_lookup_insert_ne.
Qed.

(** C1, amended. On a transaction without error whose queue is at
    capacity, a [List] that misses the cache and whose backend read
    succeeds returns "read batch size exhausted" after that one backend
    call; the queue is left as it was. *)
Theorem full_queue_exhausts_after_backend_read tx table v opts dst :
  tx_err tx = None →
  cache tx !! CacheKey opts = None →
  backend_List (backend_calls tx) table (heap tx v) opts = (None, dst) →
  full tx →
  List tx table v opts
  = (Some BatchExhausted, store (call_backend tx table opts) v dst)
  ∧ backend_calls (List tx table v opts).2 = backend_calls tx ++ [(table, opts)]
  ∧ views (List tx table v opts).2 = views tx.
Proof.
  intros He Hc Hb Hfull.
  assert (List tx table v opts
          = (Some BatchExhausted, store (call_backend tx table opts) v dst)) as E.
  { unfold List. rewrite He, Hc, Hb. unfold try_send. simpl.
    unfold full in Hfull.
    destruct (Nat.ltb_spec (length (views tx)) (views_cap tx)); [lia|done]. }
  rewrite E. done.
Qed.

End Read.

(** *** The examples *)


(** C4 as stated fails: what [List] returns is not the recorded error
    itself but [tea.Error] of it. *)
Lemma recorded_error_comes_back_through_tea_Error :
  ¬ (∀ (CacheKey : string → string) Copy backend_List
       (tx : world string string (list string)) e table v opts,
       tx_err tx = Some e →
       (List CacheKey Copy backend_List tx table v opts).1 = Some e).
Proof.
  intros H.
  specialize (H id example_copy example_backend
                (full_tx (Some (PgError "40001")) ∅) (PgError "40001")
                "users" 1%nat "page=1" eq_refl).
  vm_compute in H. discriminate H.
Qed.

(** C1 as stated fails: with the queue at capacity, [List] still calls the
    backend before it gives up the send. *)
Lemma full_queue_still_reaches_backend :
  ¬ (∀ (CacheKey : string → string) Copy backend_List
       (tx : world string string (list string)) table v opts,
       full tx →
       (List CacheKey Copy backend_List tx table v opts).1 = Some BatchExhausted
       ∧ backend_calls (List CacheKey Copy backend_List tx table v opts).2
         = backend_calls tx).
Proof.
  intros H.
  destruct (H id example_copy example_backend (full_tx None ∅)
              "users" 1%nat "page=1") as [_ Hcalls].
  { unfold full. simpl. lia. }
  vm_compute in Hcalls. discriminate Hcalls.
Qed.

Lemma full_queue_exhausts_after_backend_read_witness :
  List id example_copy example_backend (full_tx None ∅) "users" 1%nat "page=1"
  = (Some BatchExhausted,
     store (call_backend (full_tx None ∅) "users" "page=1") 1%nat ["row of users"])
  ∧ backend_calls
      (List id example_copy example_backend (full_tx None ∅)
         "users" 1%nat "page=1").2
    = backend_calls (full_tx None ∅) ++ [("users", "page=1")]
  ∧ views
      (List id example_copy example_backend (full_tx None ∅)
         "users" 1%nat "page=1").2
    = views (full_tx None ∅).
Proof.
  apply (full_queue_exhausts_after_backend_read id example_copy example_backend).
  - reflexivity.
  - reflexivity.
  - reflexivity.
  - unfold full. simpl. lia.
Defined.

Lemma recorded_error_short_circuits_List_witness :
  (∀ table v opts,
     List id example_copy example_backend
       (full_tx (Some (PgError "40001")) ∅) table v opts
     = (Some (TeaError (PgError "40001")), full_tx (Some (PgError "40001")) ∅))
  ∧ (∀ reqs,
       Lists id example_copy example_backend
         (full_tx (Some (PgError "40001")) ∅) reqs
       = (replicate (length reqs) (Some (TeaError (PgError "40001"))),
          full_tx (Some (PgError "40001")) ∅)).
Proof.
  apply (recorded_error_short_circuits_List id example_copy example_backend).
  reflexivity.
Defined.

Lemma cache_hit_copies_without_backend_witness :
  let tx := full_tx None {["page=1" := ["cached row"]]} in
  List id example_copy example_backend tx "users" 1%nat "page=1"
  = (None, store tx 1%nat ["cached row"])
  ∧ heap (List id example_copy example_backend tx "users" 1%nat "page=1").2
      1%nat = ["cached row"]
  ∧ (["cached row"] = ["cached row"] →
     heap (List id example_copy example_backend tx "users" 1%nat "page=1").2
       1%nat = ["cached row"])
  ∧ (∀ v', v' ≠ 1%nat →
       heap (List id example_copy example_backend tx "users" 1%nat "page=1").2
         v' = heap tx v')
  ∧ backend_calls
      (List id example_copy example_backend tx "users" 1%nat "page=1").2
    = backend_calls tx
  ∧ views (List id example_copy example_backend tx "users" 1%nat "page=1").2
    = views tx
  ∧ cache (List id example_copy example_backend tx "users" 1%nat "page=1").2
    = cache tx.
Proof.
  intros tx.
  apply (cache_hit_copies_without_backend id example_copy example_backend tx
           "users" 1%nat "page=1" ["cached row"]).
  - reflexivity.
  - vm_compute. reflexivity.
Defined.

End Txn.

(** ** More on the placeholder rewriter and the host classifier *)

Module TextFacts.
Import GoStrings Placeholder.

(** [?f1?f2...?fn]: the fragments [fs], each led by one placeholder. *)
Fixpoint join_marks (fs : list string) : string :=
  match fs with
  | [] => EmptyString
  | f :: fs' => String "?" (f +:+ join_marks fs')
  end.

(** The same fragments, each led by the token and its number, from [n] on. *)
Fixpoint join_numbered (ph : string) (n : Z) (fs : list string) : string :=
  match fs with
  | [] => EmptyString
  | f :: fs' => (ph +:+ pretty n) +:+ f +:+ join_numbered ph (n + 1) fs'
  end.

(** No fragment holds a [?], and only the last one may be empty (an empty
    fragment in the middle would put two [?] side by side). *)
Fixpoint fragments_ok (fs : list string) : bool :=
  match fs with
  | [] => true
  | f :: fs' =>
      bool_decide (IndexByte "?" f = None)
      && (match fs' with [] => true | _ => negb (String.eqb f "") end)
      && fragments_ok fs'
  end.

(** Whether two [?] stand side by side somewhere in [s]. *)
Fixpoint has_escape (s : string) : bool :=
  match s with
  | EmptyString => false
  | String c r =>
      match r with
      | String d _ => (Ascii.eqb c "?" && Ascii.eqb d "?") || has_escape r
      | EmptyString => false
      end
  end.

Lemma IndexByte_app_None c a b :
  IndexByte c (a +:+ b) = None ↔ IndexByte c a = None ∧ IndexByte c b = None.
Proof.
  induction a as [|x a IH]; simpl; [tauto|].
  destruct (Ascii.eqb x c); [split; [done|by intros [? _]]|].
  by rewrite !fmap_None.
Qed.

Lemma pretty_N_go_no_mark x s :
  IndexByte "?" s = None → IndexByte "?" (pretty_N_go x s) = None.
Proof.
  revert s. induction (N.lt_wf_0 x) as [x _ IH]; intros s Hs.
  assert (x = 0 ∨ 0 < x)%N as [->|?] by lia.
  - by rewrite pretty_N_go_0.
  - rewrite pretty_N_go_step by done. apply IH.
    { by apply N.div_lt. }
    simpl. rewrite Hs. unfold pretty_N_char. by repeat case_match.
Qed.

Lemma pretty_Z_no_mark (n : Z) : 0 ≤ n → IndexByte "?" (pretty n) = None.
Proof.
  intros Hn. destruct n as [|p|p]; [done| |lia].
  unfold pretty, pretty_Z, pretty, pretty_positive, pretty, pretty_N.
  case_decide; [done|]. by apply pretty_N_go_no_mark.
Qed.

Lemma ReplacePlaceholders_spec ph sql :
  ph ≠ "" → ph ≠ "?" →
  ReplacePlaceholders ph sql = (rewrite_spec ph 0 sql, None).
Proof.
  intros H1 H2. unfold ReplacePlaceholders.
  rewrite !bool_decide_eq_false_2 by done. simpl. by rewrite loop_spec.
Qed.

Lemma rewrite_spec_marks ph n fs :
  fragments_ok fs = true →
  rewrite_spec ph n (join_marks fs) = join_numbered ph (n + 1) fs.
Proof.
  revert n. induction fs as [|f fs IH]; intros n; simpl; [done|].
  rewrite !andb_true_iff, bool_decide_eq_true. intros [[Hf Hmid] Hfs].
  destruct f as [|d f'].
  - destruct fs as [|g fs']; [done|]. simpl in Hmid. done.
  - simpl in Hf |- *. destruct (Ascii.eqb d "?") eqn:Hd; [done|].
    f_equal. destruct (IndexByte "?" f') eqn:Hf'; [done|].
    rewrite rewrite_spec_app by done. by rewrite IH.
Qed.

Lemma rewrite_spec_cons ph n c r :
  rewrite_spec ph n (String c r) =
    if Ascii.eqb c "?" then
      match r with
      | String d r' =>
          if Ascii.eqb d "?" then String "?" (rewrite_spec ph n r')
          else (ph +:+ pretty (n + 1)) +:+ rewrite_spec ph (n + 1) r
      | EmptyString => (ph +:+ pretty (n + 1)) +:+ rewrite_spec ph (n + 1) r
      end
    else String c (rewrite_spec ph n r).
Proof. by destruct r. Qed.

Lemma has_escape_cons c d r :
  has_escape (String c (String d r))
  = (Ascii.eqb c "?" && Ascii.eqb d "?") || has_escape (String d r).
Proof. done. Qed.

Lemma rewrite_spec_no_escape ph n s :
  0 ≤ n → IndexByte "?" ph = None → has_escape s = false →
  IndexByte "?" (rewrite_spec ph n s) = None.
Proof.
  intros Hn Hph. revert n Hn.
  assert (∀ n, 0 ≤ n → IndexByte "?" (ph +:+ pretty (n + 1)) = None) as Htok.
  { intros n Hn. apply IndexByte_app_None. split; [done|].
    apply pretty_Z_no_mark. lia. }
  induction s as [|c r IH]; intros n Hn; [done|].
  rewrite rewrite_spec_cons. destruct r as [|d r'].
  - intros _. destruct (Ascii.eqb c "?") eqn:Hc.
    + apply IndexByte_app_None. split; [by apply Htok|done].
    + simpl. by rewrite Hc.
  - rewrite has_escape_cons, orb_false_iff. intros [Hcd Hr].
    destruct (Ascii.eqb c "?") eqn:Hc.
    + simpl in Hcd. rewrite Hcd.
      apply IndexByte_app_None. split; [by apply Htok|].
      apply IH; [lia|done].
    + change (IndexByte "?" (String c (rewrite_spec ph n (String d r'))))
        with (if Ascii.eqb c "?" then Some 0%nat
              else S <$> IndexByte "?" (rewrite_spec ph n (String d r'))).
      by rewrite Hc, (IH n Hn Hr).
Qed.

(** X1. A text without [?] comes back as it is, whatever the token. *)
Theorem ReplacePlaceholders_without_marks ph sql :
  IndexByte "?" sql = None → ReplacePlaceholders ph sql = (sql, None).
Proof.
  intros Hsql. unfold ReplacePlaceholders.
  destruct (bool_decide (ph = "") || bool_decide (ph = "?")); [done|].
  by rewrite loop_spec, rewrite_spec_no_mark.
Qed.

Lemma ReplacePlaceholders_without_marks_witness :
  ReplacePlaceholders "$" "select 1" = ("select 1", None).
Proof. apply ReplacePlaceholders_without_marks. reflexivity. Defined.

(** X2. The k-th placeholder gets the number k: fragments without [?],
    each led by one [?], come back led by the token and 1, 2, 3, ... in
    this order. *)
Theorem ReplacePlaceholders_numbers_in_order ph f0 fs :
  ph ≠ "" → ph ≠ "?" →
  IndexByte "?" f0 = None → fragments_ok fs = true →
  ReplacePlaceholders ph (f0 +:+ join_marks fs)
  = (f0 +:+ join_numbered ph 1 fs, None).
Proof.
  intros H1 H2 Hf0 Hfs. rewrite ReplacePlaceholders_spec by done.
  rewrite rewrite_spec_app by done. by rewrite rewrite_spec_marks.
Qed.

Lemma ReplacePlaceholders_numbers_in_order_witness :
  ReplacePlaceholders "$" ("a = " +:+ join_marks [" and b < "; " or c = "; ""])
  = ("a = " +:+ join_numbered "$" 1 [" and b < "; " or c = "; ""], None).
Proof.
  apply ReplacePlaceholders_numbers_in_order; [discriminate|discriminate|..];
    reflexivity.
Defined.

(** X3. An escaped pair after a text without [?] becomes one [?], and the
    numbering of what follows starts at 1 all the same. *)
Theorem ReplacePlaceholders_escape_does_not_count ph pre rest :
  ph ≠ "" → ph ≠ "?" → IndexByte "?" pre = None →
  ReplacePlaceholders ph (pre +:+ "??" +:+ rest)
  = (pre +:+ "?" +:+ (ReplacePlaceholders ph rest).1, None).
Proof.
  intros H1 H2 Hpre. rewrite !ReplacePlaceholders_spec by done.
  by rewrite rewrite_spec_app.
Qed.

Lemma ReplacePlaceholders_escape_does_not_count_witness :
  ReplacePlaceholders "$" ("x " +:+ "??" +:+ "| ?")
  = ("x " +:+ "?" +:+ (ReplacePlaceholders "$" "| ?").1, None).
Proof.
  apply ReplacePlaceholders_escape_does_not_count;
    [discriminate|discriminate|reflexivity].
Defined.

(** X4. With a token that holds no [?], a text in which no two [?] stand
    side by side comes back without any [?]: every placeholder is
    replaced. *)
Theorem ReplacePlaceholders_leaves_no_mark ph sql :
  ph ≠ "" → IndexByte "?" ph = None → has_escape sql = false →
  IndexByte "?" (ReplacePlaceholders ph sql).1 = None.
Proof.
  intros H1 Hph Hsql. rewrite ReplacePlaceholders_spec; [|done|by intros ->].
  by apply rewrite_spec_no_escape.
Qed.

Lemma ReplacePlaceholders_leaves_no_mark_witness :
  IndexByte "?" (ReplacePlaceholders ":v" "a = ? and b in (?, ?)").1 = None.
Proof.
  apply ReplacePlaceholders_leaves_no_mark; [discriminate|reflexivity..].
Defined.

(** X5. Only the text before the first colon of the host counts: a host
    is local exactly when that text, taken as a host, is. *)
Theorem isLocalhost_ignores_port host :
  Host.isLocalhost host = Host.isLocalhost (Host.first_segment host).
Proof.
  apply eq_true_iff_eq. rewrite !Host.isLocalhost_first_segment.
  assert (Host.first_segment (Host.first_segment host) = Host.first_segment host)
    as ->; [|done].
  unfold Host.first_segment at 1.
  destruct (IndexByte ":" (Host.first_segment host)) as [q|] eqn:E; [|done].
  exfalso. unfold Host.first_segment in E.
  destruct (IndexByte ":" host) as [p|] eqn:Hp; [|congruence].
  apply IndexByte_Some in Hp as [Hp _]. congruence.
Qed.

End TextFacts.

(** ** More on the orchestrator *)

Module MigrationFacts.
Import GoNum Migration.

(** The version a migration entry counts with in the first loop. *)
Definition migration_version (entry : DirEntry) : option Z :=
  (λ m, (Atoi m).1) <$> migrationFile (Name entry).

(** The version under which a seed entry goes into the map: directories
    only, and only when [Atoi] returns no error. *)
Definition seed_version (entry : DirEntry) : option Z :=
  if IsDir entry then
    match seedFile (Name entry) with
    | Some m => match Atoi m with (v, None) => Some v | (_, Some _) => None end
    | None => None
    end
  else None.

(** The path stored for a seed entry. *)
Definition seed_path (seedDirectory : string) (entry : DirEntry) : string :=
  GoStrings.TrimSuffix seedDirectory "/" +:+ "/" +:+ Name entry.

(** What the scan of the seed directory keeps true of the map and of
    [minSeedVersion]: the keys are values of an [int] that are not
    negative, and [minSeedVersion] is -1 with an empty map or else the
    least key. *)
Definition seeds_inv (st : gmap Z string * Z) : Prop :=
  (∀ v, is_Some (st.1 !! v) → 0 ≤ v ≤ MaxInt)
  ∧ ((st.2 = -1 ∧ st.1 = ∅)
     ∨ (is_Some (st.1 !! st.2) ∧ ∀ v, is_Some (st.1 !! v) → st.2 ≤ v)).

(** The [goose.UpTo] calls of a trace: directory and version asked for. *)
Definition upto_calls (tr : list event) : list (string * Z) :=
  tr ≫= λ ev, match ev with EvUpTo d v _ => [(d, v)] | _ => [] end.

(** An event of the closing part: the catch-all or a rollback. *)
Definition is_closing_event (ev : event) : Prop :=
  match ev with
  | EvUp _ _ | EvDown _ _ => True
  | _ => False
  end.

(** An event that is a goose step on the database, not an enumeration or
    the reading of the version. *)
Definition is_step (ev : event) : Prop :=
  match ev with
  | EvReadDir _ _ | EvGetDBVersion _ => False
  | _ => True
  end.

Lemma digits_value_nonneg acc s :
  0 ≤ acc → all_digits s = true → 0 ≤ digits_value acc s.
Proof.
  revert acc. induction s as [|c r IH]; intros acc Hacc; simpl; [done|].
  rewrite andb_true_iff. intros [Hc Hr]. apply IH; [|done].
  unfold is_digit in Hc. apply andb_true_iff in Hc as [Hc _].
  apply Nat.leb_le in Hc. lia.
Qed.

Lemma Atoi_bounds s : 0 ≤ (Atoi s).1 ≤ MaxInt.
Proof.
  assert (0 ≤ MaxInt) by (unfold MaxInt; lia).
  unfold Atoi. destruct s as [|c r]; [simpl; lia|].
  destruct (all_digits (String c r)) eqn:Hd; [|simpl; lia].
  destruct (Z.leb_spec (digits_value 0 (String c r)) MaxInt);
    cbn [fst]; [|lia].
  split; [|done]. by apply digits_value_nonneg.
Qed.

Lemma scan_migration_max a entry :
  scan_migration a entry = a `max` default a (migration_version entry).
Proof.
  unfold scan_migration, migration_version.
  destruct (migrationFile (Name entry)) as [m|]; simpl; [|lia].
  destruct (Atoi m) as [v e]. simpl. destruct (Z.ltb_spec a v); lia.
Qed.

Lemma foldl_scan_migration a entries :
  let r := foldl scan_migration a entries in
  a ≤ r
  ∧ (∀ entry v, entry ∈ entries → migration_version entry = Some v → v ≤ r)
  ∧ (r = a ∨ ∃ entry, entry ∈ entries ∧ migration_version entry = Some r).
Proof.
  revert a. induction entries as [|e es IH]; intros a; simpl.
  { split_and!; [lia| |by left]. by intros ?? ?%elem_of_nil. }
  destruct (IH (scan_migration a e)) as (H1 & H2 & H3).
  pose proof (scan_migration_max a e) as Hm.
  split_and!.
  - lia.
  - intros entry v [->|Hin]%elem_of_cons Hv; [|by eapply H2].
    rewrite Hv in Hm. simpl in Hm. lia.
  - destruct H3 as [H3|(entry & Hin & Hv)].
    + rewrite H3. destruct (migration_version e) as [v|] eqn:Hv; simpl in Hm.
      * destruct (Z.max_spec a v) as [[_ Hx]|[_ Hx]]; rewrite Hx in Hm.
        -- right. exists e. split; [by left|]. by rewrite Hm.
        -- left. done.
      * left. lia.
    + right. exists entry. split; [by right|done].
Qed.

(** X6. [maxMigrationVersion] is the largest number among the entries
    that match the migration pattern, and 0 when none does; entries that
    do not match are skipped. It lies between 0 and the largest [int]. *)
Theorem scan_migrations_is_largest_version entries :
  0 ≤ scan_migrations entries ≤ MaxInt
  ∧ (∀ entry v,
       entry ∈ entries → migration_version entry = Some v →
       v ≤ scan_migrations entries)
  ∧ (scan_migrations entries = 0
     ∨ ∃ entry,
         entry ∈ entries
         ∧ migration_version entry = Some (scan_migrations entries))
  ∧ ((∀ entry, entry ∈ entries → migrationFile (Name entry) = None) →
     scan_migrations entries = 0).
Proof.
  unfold scan_migrations.
  destruct (foldl_scan_migration 0 entries) as (H1 & H2 & H3).
  assert (0 ≤ MaxInt) by (unfold MaxInt; lia).
  split_and!; [done| |done|done|].
  - destruct H3 as [->|(entry & _ & Hv)]; [done|].
    unfold migration_version in Hv.
    destruct (migrationFile (Name entry)) as [m|]; [|done].
    injection Hv as <-. apply Atoi_bounds.
  - intros Hnone. destruct H3 as [?|(entry & Hin & Hv)]; [done|].
    unfold migration_version in Hv. by rewrite (Hnone _ Hin) in Hv.
Qed.

Lemma scan_migrations_is_largest_version_witness :
  scan_migrations [file "README.md"; folder "old"] = 0.
Proof.
  apply (scan_migrations_is_largest_version [file "README.md"; folder "old"]).
  intros entry Hin.
  repeat (apply elem_of_cons in Hin as [->|Hin]; [reflexivity|]).
  by apply elem_of_nil in Hin.
Defined.

Lemma seed_version_bounds entry v :
  seed_version entry = Some v → 0 ≤ v ≤ MaxInt.
Proof.
  unfold seed_version. destruct (IsDir entry); [|done].
  destruct (seedFile (Name entry)) as [m|]; [|done].
  pose proof (Atoi_bounds m) as Hb. destruct (Atoi m) as [v' [e|]]; [done|].
  by intros [= <-].
Qed.

Lemma scan_seed_step sd seeds m entry :
  scan_seed sd (seeds, m) entry =
    match seed_version entry with
    | Some v =>
        (<[v := seed_path sd entry]> seeds,
         if (m =? -1) || (v <? m) then v else m)
    | None => (seeds, m)
    end.
Proof.
  unfold scan_seed, seed_version, seed_path. destruct (IsDir entry); [|done].
  destruct (seedFile (Name entry)) as [s|]; [|done].
  by destruct (Atoi s) as [v [e|]].
Qed.

Lemma scan_seed_inv sd st entry :
  seeds_inv st → seeds_inv (scan_seed sd st entry).
Proof.
  destruct st as [seeds m]. rewrite scan_seed_step.
  destruct (seed_version entry) as [v|] eqn:Hv; [|done].
  apply seed_version_bounds in Hv. unfold seeds_inv. cbn [fst snd].
  intros [Hkeys Hmin]. split.
  - intros v' [->|[_ Hin]]%lookup_insert_is_Some; [done|by apply Hkeys].
  - right. destruct Hmin as [[-> ->]|[Hm Hle]].
    + simpl. split; [by rewrite lookup_insert_eq|].
      intros v' [->|[_ Hin]]%lookup_insert_is_Some; [lia|].
      rewrite lookup_empty in Hin. by destruct Hin.
    + assert (0 ≤ m) by (by apply Hkeys).
      destruct (Z.eqb_spec m (-1)); [lia|]. simpl.
      destruct (Z.ltb_spec v m).
      * split; [by rewrite lookup_insert_eq|].
        intros v' [->|[_ Hin]]%lookup_insert_is_Some; [lia|].
        specialize (Hle _ Hin). lia.
      * split.
        { apply lookup_insert_is_Some. destruct (decide (v = m)); auto. }
        intros v' [->|[_ Hin]]%lookup_insert_is_Some; [lia|by apply Hle].
Qed.

Lemma foldl_scan_seed_inv sd st entries :
  seeds_inv st → seeds_inv (foldl (scan_seed sd) st entries).
Proof.
  revert st. induction entries as [|e es IH]; intros st Hst; simpl; [done|].
  by apply IH, scan_seed_inv.
Qed.

Lemma foldl_scan_seed_lookup sd st entries v p :
  (foldl (scan_seed sd) st entries).1 !! v = Some p →
  st.1 !! v = Some p
  ∨ ∃ entry, entry ∈ entries ∧ seed_version entry = Some v
             ∧ p = seed_path sd entry.
Proof.
  revert st. induction entries as [|e es IH]; intros st; simpl; [by left|].
  intros [Hst|(entry & Hin & Hv & Hp)]%IH.
  - destruct st as [seeds m]. rewrite scan_seed_step in Hst.
    destruct (seed_version e) as [v'|] eqn:Hv'; [|by left].
    cbn [fst] in Hst. apply lookup_insert_Some in Hst as [[<- <-]|[_ Hst]].
    + right. exists e. split_and!; [by left|done|done].
    + by left.
  - right. exists entry. split_and!; [by right|done|done].
Qed.

Lemma foldl_scan_seed_dom sd st entries v :
  is_Some (st.1 !! v) ∨ (∃ entry, entry ∈ entries ∧ seed_version entry = Some v) →
  is_Some ((foldl (scan_seed sd) st entries).1 !! v).
Proof.
  revert st. induction entries as [|e es IH]; intros st; simpl.
  { intros [?|(? & ?%elem_of_nil & _)]; done. }
  intros H. apply IH. destruct st as [seeds m]. rewrite scan_seed_step.
  destruct H as [H|(entry & [->|Hin]%elem_of_cons & Hv)].
  - left. destruct (seed_version e) as [v'|]; [|done]. cbn [fst] in *.
    apply lookup_insert_is_Some. destruct (decide (v' = v)); auto.
  - left. rewrite Hv. cbn [fst]. by rewrite lookup_insert_eq.
  - right. by exists entry.
Qed.

(** X7. After the seed directory is scanned, [minSeedVersion] is -1
    exactly when the map of seeds is empty, and otherwise it is the least
    key of the map; every key lies between 0 and the largest [int], so -1
    is never a key. *)
Theorem scan_seeds_min_is_least_key sd entries :
  let seeds := (scan_seeds sd entries).1 in
  let minSeedVersion := (scan_seeds sd entries).2 in
  (minSeedVersion = -1 ↔ seeds = ∅)
  ∧ (seeds ≠ ∅ →
     is_Some (seeds !! minSeedVersion)
     ∧ ∀ v, is_Some (seeds !! v) → minSeedVersion ≤ v)
  ∧ (∀ v, is_Some (seeds !! v) → 0 ≤ v ≤ MaxInt).
Proof.
  intros seeds minSeedVersion.
  assert (seeds_inv (scan_seeds sd entries)) as [Hkeys Hmin].
  { apply foldl_scan_seed_inv. split; [|by left].
    intros v Hv. cbn [fst] in Hv. rewrite lookup_empty in Hv. by destruct Hv. }
  fold seeds in Hkeys, Hmin. fold minSeedVersion in Hmin.
  split_and!; [|by intros Hne; destruct Hmin as [[_ ?]|?]|done].
  destruct Hmin as [[? ?]|[Hm _]]; [done|].
  split.
  - intros E. rewrite E in Hm. apply Hkeys in Hm. lia.
  - intros E. rewrite E, lookup_empty in Hm. by destruct Hm.
Qed.

(** X8. The keys of the map of seeds are the numbers of the directories
    whose name starts with digits that fit an [int], and nothing else:
    plain files, other names and numbers out of range leave no entry. Each
    value is the seed directory, without one trailing slash, joined to the
    name of such a directory. *)
Theorem scan_seeds_holds_numbered_directories sd entries v :
  (is_Some ((scan_seeds sd entries).1 !! v)
   ↔ ∃ entry, entry ∈ entries ∧ seed_version entry = Some v)
  ∧ (∀ p, (scan_seeds sd entries).1 !! v = Some p →
       ∃ entry, entry ∈ entries ∧ IsDir entry = true
                ∧ seed_version entry = Some v ∧ p = seed_path sd entry).
Proof.
  assert (∀ p, (scan_seeds sd entries).1 !! v = Some p →
       ∃ entry, entry ∈ entries ∧ IsDir entry = true
                ∧ seed_version entry = Some v ∧ p = seed_path sd entry) as Hval.
  { intros p [Hp|(entry & Hin & Hv & Hp)]%foldl_scan_seed_lookup.
    - cbn [fst] in Hp. by rewrite lookup_empty in Hp.
    - exists entry. split_and!; try done.
      unfold seed_version in Hv. by destruct (IsDir entry). }
  split; [|done]. split.
  - intros [p Hp]. destruct (Hval p Hp) as (entry & ? & _ & ? & _). eauto.
  - intros H. apply foldl_scan_seed_dom. by right.
Qed.

Lemma rollback_trace_closing mig seeds rb :
  rollback_trace mig seeds rb → Forall is_closing_event rb.
Proof.
  intros R. apply Forall_forall. intros ev Hin.
  destruct (rollback_trace_downs _ _ _ _ R Hin) as (d & r & ->). done.
Qed.

(** The two ways [closing] can end. *)
Lemma closing_outcome_cases mig seeds err res tl :
  closing_outcome mig seeds err res tl →
  (res = None ∧ fatal err = false
   ∧ (tl = [] ∧ err ≠ None ∨ ∃ r, tl = [EvUp mig r] ∧ fatal r = false ∧ err = None))
  ∨ (∃ e rb,
       res = Some (Stacktrace e) ∧ e ≠ ErrNoNextVersion
       ∧ rollback_trace mig seeds rb
       ∧ (tl = rb ∧ err = Some e
          ∨ tl = EvUp mig (Some e) :: rb ∧ err = None)).
Proof.
  unfold closing_outcome. destruct err as [e|].
  - destruct (fatal (Some e)) eqn:F.
    + intros [-> R]. right. exists e, tl. apply fatal_Some in F.
      split_and!; [done..|by left].
    + intros [-> ->]. left. split_and!; [done..|by left].
  - intros (r & rest & -> & C). destruct r as [e|].
    + destruct (fatal (Some e)) eqn:F.
      * destruct C as [-> R]. right. exists e, rest.
        apply fatal_Some in F. split_and!; [done..|by right].
      * destruct C as [-> ->]. left. split_and!; [done..|]. right.
        by exists (Some e).
    + destruct C as [-> ->]. left. split_and!; [done..|]. right.
      by exists None.
Qed.

Lemma interleave_prefix g mig seeds minSeed version max n i err0 h :
  ∃ evs,
    (interleave g mig seeds minSeed version max n i err0 h).2 = h ++ evs
    ∧ forget <$> evs
      `prefix_of` (seqZ i (max - i) ≫= turn_plan mig seeds minSeed version).
Proof.
  revert i err0 h. induction n as [|n IH]; intros i err0 h; simpl.
  { exists []. rewrite app_nil_r. split; [done|apply prefix_nil]. }
  destruct (Z.ltb_spec i max) as [Hlt|Hge].
  2:{ exists []. rewrite app_nil_r. split; [done|apply prefix_nil]. }
  rewrite (seqZ_cons i (max - i)) by lia.
  replace (Z.pred (max - i)) with (max - Z.succ i) by lia.
  replace (Z.succ i) with (i + 1) by lia.
  unfold bind at 1, upTo at 1, ret. cbn [mbind list_bind].
  unfold turn_plan at 1.
  set (r1 := UpTo g h mig (i + 1)).
  destruct (fatal r1) eqn:F1.
  { exists [EvUpTo mig (i + 1) r1]. split; [done|].
    apply prefix_cons, prefix_nil. }
  destruct (seeds !! wrap64 (i + minSeed)) as [seed|] eqn:Hseed.
  2:{ destruct (IH (i + 1) r1 (h ++ [EvUpTo mig (i + 1) r1])) as (evs & E & P).
      exists (EvUpTo mig (i + 1) r1 :: evs). rewrite E, <-app_assoc.
      split; [done|]. by apply prefix_cons. }
  destruct (version <? wrap64 (i + minSeed)).
  2:{ destruct (IH (i + 1) r1 (h ++ [EvUpTo mig (i + 1) r1])) as (evs & E & P).
      exists (EvUpTo mig (i + 1) r1 :: evs). rewrite E, <-app_assoc.
      split; [done|]. by apply prefix_cons. }
  unfold bind at 1, upSeed at 1.
  set (r2 := UpSeed g (h ++ [EvUpTo mig (i + 1) r1]) seed).
  destruct (fatal r2) eqn:F2.
  { exists [EvUpTo mig (i + 1) r1; EvUpSeed seed r2]. rewrite <-app_assoc.
    split; [done|]. apply prefix_cons, prefix_cons, prefix_nil. }
  destruct (IH (i + 1) r2
              ((h ++ [EvUpTo mig (i + 1) r1]) ++ [EvUpSeed seed r2]))
    as (evs & E & P).
  exists (EvUpTo mig (i + 1) r1 :: EvUpSeed seed r2 :: evs).
  rewrite E, <-!app_assoc. split; [done|]. by apply prefix_cons, prefix_cons.
Qed.

(** The run in three parts: the enumeration and the version, the steps of
    the loop (a prefix of the plan), and what [closing] adds. *)
Lemma applyMigration_parts g localhost dir dialect tbl mig sd :
  let seeds := (seeds_found localhost dir sd).1 in
  let minSeed := (seeds_found localhost dir sd).2 in
  let version := GetDBVersion g (enumeration localhost dir mig sd) in
  ∃ evs tl,
    (applyMigration g localhost dir dialect tbl mig sd []).2
    = prelude g localhost dir mig sd ++ evs ++ tl
    ∧ Forall is_closing_event tl
    ∧ (localhost = false → evs = [])
    ∧ forget <$> evs
      `prefix_of` plan mig seeds minSeed version
                    (steps g (scan_migrations (dir mig)) seeds).
Proof.
  intros seeds minSeed version.
  rewrite applyMigration_phases. cbv zeta.
  fold (prelude g localhost dir mig sd). fold seeds minSeed version.
  set (h0 := prelude g localhost dir mig sd).
  set (max := steps g (scan_migrations (dir mig)) seeds).
  assert (∀ err h1, Forall is_closing_event
            (drop (length h1) (closing g mig seeds err h1).2)
          ∧ (closing g mig seeds err h1).2
            = h1 ++ drop (length h1) (closing g mig seeds err h1).2) as Hcl.
  { intros err h1.
    destruct (closing_cases g mig seeds err h1) as (res & tl & -> & C).
    cbn [snd]. rewrite drop_app_length. split; [|done].
    apply closing_outcome_cases in C
      as [(_ & _ & [[-> _]|(r & -> & _)])|(e & rb & _ & _ & R & [[-> _]|[-> _]])].
    - constructor.
    - by repeat constructor.
    - by eapply rollback_trace_closing.
    - constructor; [done|]. by eapply rollback_trace_closing. }
  destruct localhost.
  - destruct (interleave_prefix g mig seeds minSeed version max
                (Z.to_nat max) 0 None h0) as (evs & E & P).
    destruct (interleave g mig seeds minSeed version max (Z.to_nat max) 0 None h0)
      as [err h1]. cbn [snd] in E. subst h1.
    destruct (Hcl err (h0 ++ evs)) as [Htl Heq].
    exists evs, (drop (length (h0 ++ evs)) (closing g mig seeds err (h0 ++ evs)).2).
    split_and!; [by rewrite Heq at 1; rewrite <-app_assoc|done|done|].
    unfold plan. by rewrite Z.sub_0_r in P.
  - destruct (Hcl None h0) as [Htl Heq].
    exists [], (drop (length h0) (closing g mig seeds None h0).2).
    split_and!; [by rewrite Heq at 1|done|done|apply prefix_nil].
Qed.

(** X9. [applyMigration] returns nil exactly when no migration, seed or
    catch-all step failed with an error other than "no next version"; an
    error it returns is never "no next version" and always comes through
    [trail.Stacktrace]. *)
Theorem applyMigration_succeeds_iff_no_step_failed g localhost dir dialect tbl mig sd :
  ((applyMigration g localhost dir dialect tbl mig sd []).1 = None
   ↔ existsb step_failed
       (applyMigration g localhost dir dialect tbl mig sd []).2 = false)
  ∧ (∀ x, (applyMigration g localhost dir dialect tbl mig sd []).1 = Some x →
       ∃ e, x = Stacktrace e ∧ e ≠ ErrNoNextVersion).
Proof.
  destruct (applyMigration_run g localhost dir dialect tbl mig sd)
    as (err1 & evs & res & tl & E & T & _ & C).
  rewrite E. cbn [fst snd].
  set (tr := prelude g localhost dir mig sd ++ evs ++ tl) in *.
  assert (∀ x, res = Some x →
            existsb step_failed tr = true
            ∧ ∃ e, x = Stacktrace e ∧ e ≠ ErrNoNextVersion) as Herr.
  { intros x ->.
    apply closing_outcome_cases in C
      as [(? & _)|(e & rb & [= ->] & Hne & R & [[-> ->]|[-> ->]])]; [done|..].
    - split; [|by exists e].
      destruct (loop_trace_culprit _ _ _ _ _ T eq_refl) as (ev & Hin & Hs & _).
      { by apply fatal_Some. }
      apply existsb_step_failed_elem. exists ev. split; [|done].
      unfold tr. rewrite !elem_of_app. auto.
    - split; [|by exists e].
      apply existsb_step_failed_elem. exists (EvUp mig (Some e)). split.
      + unfold tr. rewrite !elem_of_app. right. right. by left.
      + by apply fatal_Some. }
  split.
  - split.
    + intros ->. apply not_true_is_false. intros Hfail.
      destruct (applyMigration_failure _ _ _ _ _ _ _ _ _ E Hfail)
        as (e & _ & _ & _ & ? & _). done.
    + intros Hok. destruct res as [x|]; [|done].
      destruct (Herr x eq_refl) as [Hfail _]. congruence.
  - intros x Hx. by destruct (Herr x Hx).
Qed.

(** X10. The rollback and the error go together: the run calls
    [goose.Down], on any directory and in particular on the migration
    directory, exactly when [applyMigration] returns an error. A run that
    returns nil rolls nothing back. *)
Theorem applyMigration_rolls_back_iff_error g localhost dir dialect tbl mig sd :
  ((∃ d r, EvDown d r ∈ (applyMigration g localhost dir dialect tbl mig sd []).2)
   ↔ (applyMigration g localhost dir dialect tbl mig sd []).1 ≠ None)
  ∧ ((∃ r, EvDown mig r ∈ (applyMigration g localhost dir dialect tbl mig sd []).2)
     ↔ (applyMigration g localhost dir dialect tbl mig sd []).1 ≠ None).
Proof.
  destruct (applyMigration_run g localhost dir dialect tbl mig sd)
    as (err1 & evs & res & tl & -> & T & _ & C).
  cbn [fst snd].
  assert (∀ d r, EvDown d r ∉ prelude g localhost dir mig sd ++ evs) as Hno.
  { intros d r [Hin|Hin]%elem_of_app.
    - apply prelude_quiet in Hin as [(? & ? & ?)|(? & ?)]; done.
    - apply loop_trace_events in T. rewrite Forall_forall in T.
      exact (T _ Hin). }
  apply closing_outcome_cases in C
    as [(-> & _ & Htl)|(e & rb & -> & _ & R & Htl)].
  - assert (∀ d r, EvDown d r ∉ prelude g localhost dir mig sd ++ evs ++ tl)
      as Hnone.
    { intros d r Hin. rewrite app_assoc in Hin.
      apply elem_of_app in Hin as [Hin|Hin]; [by apply Hno in Hin|].
      destruct Htl as [[-> _]|(r' & -> & _)].
      + by apply elem_of_nil in Hin.
      + apply elem_of_cons in Hin as [?|Hin]; [done|by apply elem_of_nil in Hin]. }
    split; (split; [|done]).
    + intros (d & r & Hin). by apply Hnone in Hin.
    + intros (r & Hin). by apply Hnone in Hin.
  - assert (∃ r, EvDown mig r ∈ prelude g localhost dir mig sd ++ evs ++ tl)
      as [r Hr].
    { destruct (rollback_trace_migration _ _ _ R) as [r Hr].
      exists r. rewrite !elem_of_app. right. right.
      destruct Htl as [[-> _]|[-> _]]; [done|by right]. }
    split; (split; [done|]); intros _; eauto.
Qed.

(** X11. The database version is read once, after the enumeration and
    before the first step: the trace is the enumeration, the version, and
    then goose steps only. The version the seeds are compared with is the
    one recorded before the run. *)
Theorem applyMigration_reads_version_once g localhost dir dialect tbl mig sd :
  ∃ rest,
    (applyMigration g localhost dir dialect tbl mig sd []).2
    = enumeration localhost dir mig sd
      ++ EvGetDBVersion (GetDBVersion g (enumeration localhost dir mig sd))
      :: rest
    ∧ Forall is_step rest.
Proof.
  destruct (applyMigration_run g localhost dir dialect tbl mig sd)
    as (err1 & evs & res & tl & -> & T & _ & C).
  exists (evs ++ tl). cbn [snd]. unfold prelude. rewrite <-app_assoc.
  split; [done|]. apply Forall_app. split.
  - apply loop_trace_events in T. eapply Forall_impl; [exact T|].
    by intros [].
  - apply Forall_forall. intros ev Hin.
    apply closing_outcome_cases in C
      as [(_ & _ & [[-> _]|(r & -> & _)])|(e & rb & _ & _ & R & [[-> _]|[-> _]])].
    + by apply elem_of_nil in Hin.
    + apply elem_of_cons in Hin as [->|Hin]; [done|by apply elem_of_nil in Hin].
    + destruct (rollback_trace_downs _ _ _ _ R Hin) as (? & ? & ->). done.
    + apply elem_of_cons in Hin as [->|Hin]; [done|].
      destruct (rollback_trace_downs _ _ _ _ R Hin) as (? & ? & ->). done.
Qed.

(** X12. A seed is applied only from a slot of the loop and only when it
    is newer than the recorded version: if the run applies the seed
    directory [d], then [d] sits in the map under the key
    [i + minSeedVersion] for a turn [i] below [steps], and that key is
    greater than the version read at the start. Seeds in later slots and
    seeds not newer than the recorded version are never applied. *)
Theorem applyMigration_applies_seeds_from_slots g localhost dir dialect tbl mig sd d r :
  let seeds := (seeds_found localhost dir sd).1 in
  let minSeed := (seeds_found localhost dir sd).2 in
  let version := GetDBVersion g (enumeration localhost dir mig sd) in
  EvUpSeed d r ∈ (applyMigration g localhost dir dialect tbl mig sd []).2 →
  localhost = true
  ∧ ∃ i, 0 ≤ i < steps g (scan_migrations (dir mig)) seeds
         ∧ seeds !! wrap64 (i + minSeed) = Some d
         ∧ version < wrap64 (i + minSeed).
Proof.
  intros seeds minSeed version.
  destruct (applyMigration_parts g localhost dir dialect tbl mig sd)
    as (evs & tl & -> & Htl & Hloc & P).
  fold seeds minSeed version in P.
  rewrite !elem_of_app. intros [Hin|[Hin|Hin]].
  - apply prelude_quiet in Hin as [(? & ? & ?)|(? & ?)]; done.
  - split.
    { destruct localhost; [done|]. rewrite Hloc in Hin by done.
      by apply elem_of_nil in Hin. }
    assert (EvUpSeed d None ∈ forget <$> evs) as Hin'.
    { apply list_elem_of_fmap. by exists (EvUpSeed d r). }
    destruct P as [k Hk].
    assert (EvUpSeed d None
            ∈ plan mig seeds minSeed version
                (steps g (scan_migrations (dir mig)) seeds)) as Hplan.
    { rewrite Hk. apply elem_of_app. by left. }
    unfold plan in Hplan. apply list_elem_of_bind in Hplan as (i & Hi & Hrange).
    apply elem_of_seqZ in Hrange. exists i. split; [lia|].
    unfold turn_plan in Hi. apply elem_of_cons in Hi as [?|Hi]; [done|].
    destruct (seeds !! wrap64 (i + minSeed)) as [seed|];
      [|by apply elem_of_nil in Hi].
    destruct (Z.ltb_spec version (wrap64 (i + minSeed)));
      [|by apply elem_of_nil in Hi].
    apply elem_of_cons in Hi as [[= ->]|Hi]; [done|by apply elem_of_nil in Hi].
  - rewrite Forall_forall in Htl. by apply Htl in Hin.
Qed.

Lemma applyMigration_applies_seeds_from_slots_witness :
  true = true
  ∧ ∃ i, 0 ≤ i < steps goose_ok (scan_migrations (example_fs "migrations"))
                   (seeds_found true example_fs "seeds").1
         ∧ (seeds_found true example_fs "seeds").1
             !! wrap64 (i + (seeds_found true example_fs "seeds").2)
           = Some "seeds/2_seedB"
         ∧ GetDBVersion goose_ok (enumeration true example_fs "migrations" "seeds")
           < wrap64 (i + (seeds_found true example_fs "seeds").2).
Proof.
  apply (applyMigration_applies_seeds_from_slots goose_ok true example_fs
           "postgres" "goose_db_version" "migrations" "seeds"
           "seeds/2_seedB" None).
  vm_compute. repeat constructor.
Defined.

Lemma upto_calls_app l1 l2 :
  upto_calls (l1 ++ l2) = upto_calls l1 ++ upto_calls l2.
Proof. apply bind_app. Qed.

Lemma upto_calls_forget evs : upto_calls (forget <$> evs) = upto_calls evs.
Proof.
  induction evs as [|ev evs IH]; [done|].
  rewrite fmap_cons. unfold upto_calls in *. rewrite !bind_cons, IH.
  by destruct ev.
Qed.

Lemma upto_calls_closing tl : Forall is_closing_event tl → upto_calls tl = [].
Proof.
  induction 1 as [|ev tl Hev _ IH]; [done|].
  unfold upto_calls in *. rewrite bind_cons, IH. by destruct ev.
Qed.

Lemma upto_calls_plan mig seeds minSeed version i (n : nat) :
  upto_calls (seqZ i (Z.of_nat n) ≫= turn_plan mig seeds minSeed version)
  = (λ v, (mig, v)) <$> seqZ (i + 1) (Z.of_nat n).
Proof.
  revert i. induction n as [|n IH]; intros i; [done|].
  rewrite !(seqZ_cons _ (Z.of_nat (S n))) by lia.
  replace (Z.pred (Z.of_nat (S n))) with (Z.of_nat n) by lia.
  rewrite bind_cons, upto_calls_app, fmap_cons.
  replace (Z.succ i) with (i + 1) by lia.
  replace (Z.succ (i + 1)) with (i + 1 + 1) by lia.
  rewrite IH. unfold turn_plan, upto_calls.
  destruct (seeds !! wrap64 (i + minSeed)) as [seed|]; [|done].
  by destruct (version <? wrap64 (i + minSeed)).
Qed.

Lemma prefix_of_fmap_seqZ {A} (f : Z → A) (l : list A) m (n : nat) :
  l `prefix_of` f <$> seqZ m (Z.of_nat n) →
  (length l ≤ n)%nat ∧ l = f <$> seqZ m (Z.of_nat (length l)).
Proof.
  intros [t Ht].
  assert (n = length l + length t)%nat as Hn.
  { rewrite <-length_app, <-Ht, length_fmap, length_seqZ. lia. }
  split; [lia|].
  replace (Z.of_nat n) with (Z.of_nat (length l) + Z.of_nat (length t)) in Ht
    by lia.
  rewrite seqZ_app, fmap_app in Ht by lia.
  apply app_inj_1 in Ht as [Ht _]; [done|].
  rewrite length_fmap, length_seqZ. lia.
Qed.

(** X13. Migrations are asked for one version at a time and in order:
    the [goose.UpTo] calls of a run are on the migration directory and ask
    for the versions 1, 2, ..., k, for some k that is at most [steps].
    Whatever fails, no version is skipped, repeated or asked out of
    order. *)
Theorem applyMigration_asks_versions_in_order g localhost dir dialect tbl mig sd :
  ∃ k : nat,
    Z.of_nat k
    ≤ 0 `max` steps g (scan_migrations (dir mig)) (seeds_found localhost dir sd).1
    ∧ upto_calls (applyMigration g localhost dir dialect tbl mig sd []).2
      = (λ v, (mig, v)) <$> seqZ 1 (Z.of_nat k).
Proof.
  destruct (applyMigration_parts g localhost dir dialect tbl mig sd)
    as (evs & tl & -> & Htl & _ & P).
  set (max := steps g (scan_migrations (dir mig)) (seeds_found localhost dir sd).1)
    in *.
  assert (upto_calls (prelude g localhost dir mig sd) = []) as Hpre.
  { unfold prelude, enumeration.
    by destruct (localhost && negb (String.eqb sd "")). }
  rewrite !upto_calls_app, Hpre, (upto_calls_closing tl Htl), app_nil_r.
  cbn [app].
  assert (upto_calls evs
          `prefix_of` (λ v, (mig, v)) <$> seqZ 1 (Z.of_nat (Z.to_nat max))) as Hp.
  { destruct P as [t Ht]. exists (upto_calls t).
    rewrite <-upto_calls_forget, <-upto_calls_app, <-Ht. unfold plan.
    destruct (Z.le_gt_cases max 0).
    - by rewrite !seqZ_nil by lia.
    - pose proof (upto_calls_plan mig (seeds_found localhost dir sd).1
                    (seeds_found localhost dir sd).2
                    (GetDBVersion g (enumeration localhost dir mig sd))
                    0 (Z.to_nat max)) as Hq.
      rewrite Z2Nat.id in Hq |- * by lia. by rewrite Hq. }
  apply prefix_of_fmap_seqZ in Hp as [Hlen Heq].
  exists (length (upto_calls evs)). split; [lia|done].
Qed.

(** X14. [NewSQL] panics exactly when it is given a nil URL with a
    recognised dialect. When it returns, it returns a backend or an error,
    never both and never neither; a backend it returns carries the
    placeholder [$] and the URL it was given. *)
Theorem NewSQL_returns_backend_or_error g connect dialect databaseURL config :
  ((NewSQL g connect dialect databaseURL config []).1 = Panicked
   ↔ databaseURL = None ∧ (dialect = "postgres" ∨ dialect = "redshift"))
  ∧ (∀ db err,
       (NewSQL g connect dialect databaseURL config []).1 = Returned (db, err) →
       (db = None ↔ err ≠ None)
       ∧ (∀ b, db = Some b →
            ph (backend b) = "$" ∧ url (backend b) = databaseURL
            ∧ is_Some databaseURL)).
Proof.
  unfold NewSQL, newPostgres.
  destruct (String.eqb dialect "postgres" || String.eqb dialect "redshift")
    eqn:Hd.
  2:{ apply orb_false_iff in Hd as [Hp Hr].
      apply String.eqb_neq in Hp, Hr. split.
      - split; [done|]. intros [_ [?|?]]; done.
      - intros db err [= <- <-]. split; [done|]. by intros b. }
  assert (dialect = "postgres" ∨ dialect = "redshift") as Hrec.
  { apply orb_true_iff in Hd as [?%String.eqb_eq|?%String.eqb_eq]; auto. }
  destruct databaseURL as [u|]; [|split; [done|by intros db err]].
  split.
  - split; [|by intros [? _]].
    destruct (SQLOpenFunc config dialect (URLString u)) as [e|]; [done|].
    destruct (connect (URLString u)) as [e|]; [done|].
    destruct (MigrationFS config) as [dir|]; [|done].
    destruct (negb (String.eqb (MigrationDirectory config) "")); [|done].
    unfold bind.
    by destruct (applyMigration _ _ _ _ _ _ _ _) as [[e|] tr].
  - intros db err.
    destruct (SQLOpenFunc config dialect (URLString u)) as [e|].
    { intros [= <- <-]. split; [done|]. by intros b. }
    destruct (connect (URLString u)) as [e|].
    { intros [= <- <-]. split; [done|]. by intros b. }
    assert (∀ o : outcome (option SQL * option error),
              o = Returned
                    (Some {| backend := {| ph := "$"; url := Some u |} |}, None) →
              o = Returned (db, err) →
              (db = None ↔ err ≠ None)
              ∧ (∀ b, db = Some b →
                   ph (backend b) = "$" ∧ url (backend b) = Some u
                   ∧ is_Some (Some u))) as Hok.
    { intros o -> [= <- <-]. split; [done|]. by intros b [= <-]. }
    destruct (MigrationFS config) as [dir|]; [|by apply Hok].
    destruct (negb (String.eqb (MigrationDirectory config) ""));
      [|by apply Hok].
    unfold bind.
    destruct (applyMigration _ _ _ _ _ _ _ _) as [[e|] tr]; [|by apply Hok].
    intros [= <- <-]. split; [done|]. by intros b.
Qed.

(** X15. [NewSQL] touches the migration directory or the database only
    after it was given a URL, the dialect was recognised, the connection
    was opened without error, and a migration file system and a migration
    directory are configured; otherwise it leaves no event. *)
Theorem NewSQL_migrates_only_when_connected g connect dialect databaseURL config :
  (NewSQL g connect dialect databaseURL config []).2 ≠ [] →
  ∃ u,
    databaseURL = Some u
    ∧ (dialect = "postgres" ∨ dialect = "redshift")
    ∧ SQLOpenFunc config dialect (URLString u) = None
    ∧ connect (URLString u) = None
    ∧ is_Some (MigrationFS config)
    ∧ MigrationDirectory config ≠ "".
Proof.
  unfold NewSQL, newPostgres.
  destruct (String.eqb dialect "postgres") eqn:Hp;
    [|destruct (String.eqb dialect "redshift") eqn:Hr; [|done]].
  all: simpl.
  all: destruct databaseURL as [u|]; [|done].
  all: destruct (SQLOpenFunc config dialect (URLString u)) as [e|] eqn:Ho;
    [done|].
  all: destruct (connect (URLString u)) as [e|] eqn:Hc; [done|].
  all: destruct (MigrationFS config) as [dir|]; [|done].
  all: destruct (String.eqb_spec (MigrationDirectory config) ""); [done|].
  all: intros _; exists u; split_and!; try done.
  - left. by apply String.eqb_eq.
  - right. by apply String.eqb_eq.
Qed.

Lemma NewSQL_migrates_only_when_connected_witness :
  ∃ u,
    Some (example_url "localhost:5432") = Some u
    ∧ ("postgres" = "postgres" ∨ "postgres" = "redshift")
    ∧ SQLOpenFunc example_config "postgres" (URLString u) = None
    ∧ (λ _ : string, @None error) (URLString u) = None
    ∧ is_Some (MigrationFS example_config)
    ∧ MigrationDirectory example_config ≠ "".
Proof.
  apply (NewSQL_migrates_only_when_connected goose_ok (λ _, None) "postgres"
           (Some (example_url "localhost:5432")) example_config).
  vm_compute. discriminate.
Defined.

Lemma foldl_scan_seed_none sd st entries :
  (∀ entry, entry ∈ entries → seed_version entry = None) →
  foldl (scan_seed sd) st entries = st.
Proof.
  revert st. induction entries as [|e es IH]; intros st Hnone; simpl; [done|].
  destruct st as [seeds m]. rewrite scan_seed_step, Hnone by (by left).
  apply IH. intros entry Hin. apply Hnone. by right.
Qed.

(** X17. With nothing to interleave the loop takes no step, also on a
    local host: when no entry of the migration directory matches the
    migration pattern and no entry of the seed directory is a numbered
    directory, the run is the enumeration, the version, the catch-all, and
    at most the rollback of the migration directory. *)
Theorem applyMigration_with_nothing_to_interleave g localhost dir dialect tbl mig sd :
  (∀ entry, entry ∈ dir mig → migrationFile (Name entry) = None) →
  (∀ entry, entry ∈ dir sd → seed_version entry = None) →
  ∃ r rest,
    (applyMigration g localhost dir dialect tbl mig sd []).2
    = prelude g localhost dir mig sd ++ EvUp mig r :: rest
    ∧ (rest = [] ∨ ∃ r', rest = [EvDown mig r']).
Proof.
  intros Hmig Hseed.
  assert (seeds_found localhost dir sd = (∅, -1)) as Hs.
  { unfold seeds_found. destruct (localhost && negb (String.eqb sd "")); [|done].
    unfold scan_seeds. by apply foldl_scan_seed_none. }
  assert (scan_migrations (dir mig) = 0) as Hm.
  { unfold scan_migrations.
    destruct (foldl_scan_migration 0 (dir mig)) as (_ & _ & [?|(e & Hin & Hv)]);
      [done|].
    unfold migration_version in Hv. by rewrite (Hmig _ Hin) in Hv. }
  rewrite applyMigration_phases. cbv zeta.
  fold (prelude g localhost dir mig sd). rewrite Hs, Hm. cbn [fst snd].
  assert (steps g 0 ∅ = 0) as -> by done.
  change (Z.to_nat 0) with 0%nat. cbn [interleave].
  assert ((if localhost
           then ret (@None error) (prelude g localhost dir mig sd)
           else (None, prelude g localhost dir mig sd))
          = (None, prelude g localhost dir mig sd)) as -> by (by destruct localhost).
  unfold closing, bind, up, down, ret.
  set (h0 := prelude g localhost dir mig sd).
  exists (Up g h0 mig). destruct (Up g h0 mig) as [e|].
  - destruct (fatal (Some e)).
    + unfold seed_dirs. rewrite map_to_list_empty. simpl.
      eexists. rewrite <-app_assoc. split; [done|]. right. by eexists.
    + exists []. split; [done|by left].
  - exists []. split; [done|by left].
Qed.

Lemma applyMigration_with_nothing_to_interleave_witness :
  ∃ r rest,
    (applyMigration goose_ok true (λ _, [file "notes.txt"]) "postgres"
       "goose_db_version" "migrations" "seeds" []).2
    = prelude goose_ok true (λ _, [file "notes.txt"]) "migrations" "seeds"
      ++ EvUp "migrations" r :: rest
    ∧ (rest = [] ∨ ∃ r', rest = [EvDown "migrations" r']).
Proof.
  apply applyMigration_with_nothing_to_interleave;
    intros entry Hin; apply elem_of_cons in Hin as [->|Hin];
    [reflexivity|by apply elem_of_nil in Hin|reflexivity
    |by apply elem_of_nil in Hin].
Defined.

End MigrationFacts.

(** ** More on the error mapping and on [Txn.List] *)

Module PostgresFacts.
Import Postgres.

(** X18. None of the three mappings hides an error: [Get] and [Exec]
    return nil only when the driver call returned nil, and [List] only when
    moreover the destination is not nil. *)
Theorem mappings_never_hide_an_error scanned dest_is_nil :
  (Get scanned = None ↔ scanned = None)
  ∧ (List scanned dest_is_nil = None ↔ scanned = None ∧ dest_is_nil = false)
  ∧ (Exec scanned = None ↔ scanned = None).
Proof.
  unfold Get, List, Exec. split_and!.
  - destruct scanned as [err|]; [|done].
    by destruct (IsError err ErrNoRows).
  - destruct scanned as [err|]; [by split; [|intros [? _]]|].
    destruct dest_is_nil; by split; [|try intros [_ ?]].
  - destruct scanned as [err|]; [|done].
    destruct (AsPgError err) as [code|]; [|done].
    by destruct (IsIntegrityConstraintViolation code).
Qed.

(** X19. The mappings are stable: applying [Get], [List] or [Exec] to its
    own result changes nothing. A mapped error is not mapped a second
    time, and [ErrConflict] and [ErrNotFound] are not taken for driver
    errors. *)
Theorem mappings_are_idempotent scanned (dest_is_nil : bool) :
  Get (Get scanned) = Get scanned
  ∧ List (List scanned dest_is_nil) dest_is_nil = List scanned dest_is_nil
  ∧ Exec (Exec scanned) = Exec scanned.
Proof.
  unfold Get, List, Exec. split_and!.
  - destruct scanned as [err|]; [|done].
    destruct (IsError err ErrNoRows) eqn:E; [done|]. by rewrite E.
  - destruct scanned as [err|]; [done|]. by destruct dest_is_nil.
  - destruct scanned as [err|]; [|done].
    destruct (AsPgError err) as [code|] eqn:E; [|by rewrite E].
    destruct (IsIntegrityConstraintViolation code) eqn:E'; [done|].
    by rewrite E, E'.
Qed.

(** X20. The driver's own shapes of the two conditions do not come out:
    what [Get] returns is never [pgx.ErrNoRows], bare or annotated, and
    what [Exec] returns never carries a [PgError] of the integrity class. *)
Theorem driver_conditions_never_escape scanned :
  (∀ out, Get scanned = Some out → IsError out ErrNoRows = false)
  ∧ (∀ out code,
       Exec scanned = Some out → AsPgError out = Some code →
       IsIntegrityConstraintViolation code = false).
Proof.
  unfold Get, Exec. split.
  - intros out. destruct scanned as [err|]; [|done].
    destruct (IsError err ErrNoRows) eqn:E; by intros [= <-].
  - intros out code. destruct scanned as [err|]; [|done].
    destruct (AsPgError err) as [code'|] eqn:E.
    + destruct (IsIntegrityConstraintViolation code') eqn:E'.
      * by intros [= <-].
      * intros [= <-]. rewrite E. by intros [= <-].
    + intros [= <-]. by rewrite E.
Qed.

Lemma driver_conditions_never_escape_witness :
  IsError (Trail KNotFound "the requested item does not exist") ErrNoRows = false
  ∧ IsIntegrityConstraintViolation "40001" = false.
Proof.
  split.
  - apply (proj1 (driver_conditions_never_escape (Some (Stacktrace ErrNoRows)))).
    reflexivity.
  - apply (proj2 (driver_conditions_never_escape
                    (Some (TeaError (PgError "40001"))))
             (TeaError (PgError "40001")) "40001"); reflexivity.
Defined.

End PostgresFacts.

Module TxnFacts.
Import Txn.

(** A transaction without error, with an empty cache and an empty queue of
    capacity 3. *)
Definition roomy_tx : world string string (list string) :=
  {| tx_err := None; cache := ∅; views := []; views_cap := 3;
     backend_calls := []; heap := λ _, [] |}.

Section Read.
Context {Table Opts Val : Type}.
Context (CacheKey : Opts → string).
Context (Copy : Val → Val → option error * Val).
Context (backend_List :
  list (Table * Opts) → Table → Val → Opts → option error * Val).

#[local] Abbreviation W := (world Table Opts Val).
#[local] Abbreviation List := (Txn.List CacheKey Copy backend_List).
#[local] Abbreviation Lists := (Txn.Lists CacheKey Copy backend_List).

(** The fields of the transaction that [List] only reads. *)
Definition same_frame (tx tx' : W) : Prop :=
  tx_err tx' = tx_err tx ∧ cache tx' = cache tx
  ∧ views_cap tx' = views_cap tx.

(** The view a [List] with these arguments would enqueue. *)
Definition view_of (v : loc) (opts : Opts) : view :=
  {| Key := CacheKey opts; Value := v |}.

(** The outcome of one [List], branch by branch. *)
Lemma List_cases (tx : W) table v opts :
  let r := List tx table v opts in
  same_frame tx r.2
  ∧ (∀ v', v' ≠ v → heap r.2 v' = heap tx v')
  ∧ ((backend_calls r.2 = backend_calls tx ∧ views r.2 = views tx
      ∧ (is_Some (tx_err tx) ∨ is_Some (cache tx !! CacheKey opts)))
     ∨ (backend_calls r.2 = backend_calls tx ++ [(table, opts)]
        ∧ tx_err tx = None ∧ cache tx !! CacheKey opts = None
        ∧ ((views r.2 = views tx
            ∧ (r.1 ≠ None)
            ∧ ((backend_List (backend_calls tx) table (heap tx v) opts).1 ≠ None
               ∨ full tx))
           ∨ (views r.2 = views tx ++ [view_of v opts]
              ∧ r.1 = None
              ∧ (backend_List (backend_calls tx) table (heap tx v) opts).1 = None
              ∧ (length (views tx) < views_cap tx)%nat)))).
Proof.
  unfold Txn.List, same_frame, full.
  destruct (tx_err tx) as [e|] eqn:He.
  { cbn [fst snd]. split_and!; [done..|]. left. split_and!; [done..|]. left. eauto. }
  destruct (cache tx !! CacheKey opts) as [cv|] eqn:Hc.
  { destruct (Copy cv (heap tx v)) as [err dst]. cbn [fst snd].
    split_and!; [done..| |].
    - intros v' Hv'. simpl. by rewrite fn_lookup_insert_ne.
    - left. split_and!; [done..|]. right. eauto. }
  destruct (backend_List (backend_calls tx) table (heap tx v) opts)
    as [err dst]. cbn [fst].
  assert (∀ v', v' ≠ v →
            heap (store (call_backend tx table opts) v dst) v' = heap tx v')
    as Hframe.
  { intros v' Hv'. simpl. by rewrite fn_lookup_insert_ne. }
  destruct err as [e|].
  { cbn [fst snd]. split_and!; [done..|]. right. split_and!; [done..|].
    left. split_and!; [done|done|by left]. }
  unfold try_send. cbn [views views_cap store call_backend].
  destruct (Nat.ltb_spec (length (views tx)) (views_cap tx)).
  - cbn [fst snd]. split_and!; [done..|]. right. split_and!; [done..|].
    right. done.
  - cbn [fst snd]. split_and!; [done..|]. right. split_and!; [done..|].
    left. split_and!; [done|done|by right].
Qed.

(** X21. [List] only reads the cache, the error field and the capacity of
    the queue, and it writes no destination but its own: after the call
    they are as before, whatever the call returned. In particular a
    failed [List] does not put an error on the transaction. *)
Theorem List_keeps_the_frame (tx : W) table v opts :
  tx_err (List tx table v opts).2 = tx_err tx
  ∧ cache (List tx table v opts).2 = cache tx
  ∧ views_cap (List tx table v opts).2 = views_cap tx
  ∧ (∀ v', v' ≠ v → heap (List tx table v opts).2 v' = heap tx v').
Proof.
  destruct (List_cases tx table v opts) as ((? & ? & ?) & ? & _). done.
Qed.

(** X22. The backend is asked exactly on a cache miss of a transaction
    without error, and then once; on a recorded error or a cache hit it
    gets no call. *)
Theorem List_calls_backend_iff_miss (tx : W) table v opts :
  (tx_err tx = None ∧ cache tx !! CacheKey opts = None →
   backend_calls (List tx table v opts).2 = backend_calls tx ++ [(table, opts)])
  ∧ (is_Some (tx_err tx) ∨ is_Some (cache tx !! CacheKey opts) →
     backend_calls (List tx table v opts).2 = backend_calls tx).
Proof.
  destruct (List_cases tx table v opts)
    as (_ & _ & [(Hb & _ & Hwhy)|(Hb & He & Hc & _)]).
  - split; [|done]. intros [He Hc]. rewrite He, Hc in Hwhy.
    destruct Hwhy as [[? ?]|[? ?]]; done.
  - split; [done|]. rewrite He, Hc. intros [[? ?]|[? ?]]; done.
Qed.

(** X23. A view is enqueued only by a read that went to the backend and
    succeeded while the queue had room: either the queue is as before, or
    it grew at its end by the one view of this call, the call returned
    nil, and it was a cache miss of a transaction without error that the
    backend served. *)
Theorem List_enqueues_only_after_backend_success (tx : W) table v opts :
  views (List tx table v opts).2 = views tx
  ∨ (views (List tx table v opts).2 = views tx ++ [view_of v opts]
     ∧ (List tx table v opts).1 = None
     ∧ tx_err tx = None ∧ cache tx !! CacheKey opts = None
     ∧ (backend_List (backend_calls tx) table (heap tx v) opts).1 = None
     ∧ (length (views tx) < views_cap tx)%nat).
Proof.
  destruct (List_cases tx table v opts)
    as (_ & _ & [(_ & Hv & _)|(_ & He & Hc & [(Hv & _)|(Hv & Hr & Hb & Hroom)])]).
  - by left.
  - by left.
  - right. done.
Qed.

Lemma Lists_cons (tx : W) table v opts reqs :
  Lists tx ((table, v, opts) :: reqs)
  = ((List tx table v opts).1 :: (Lists (List tx table v opts).2 reqs).1,
     (Lists (List tx table v opts).2 reqs).2).
Proof.
  simpl. destruct (Txn.List _ _ _ tx table v opts) as [err tx'].
  cbn [fst snd]. by destruct (Txn.Lists _ _ _ tx' reqs).
Qed.

(** X24. Over any sequence of [List] calls the queue only grows at its
    end and never beyond its capacity: the views queued before stay where
    they are, a queue within its capacity stays within it, a full queue is
    left exactly as it is, and the backend gets at most one call per
    [List]. The error field, the cache and the capacity do not change. *)
Theorem Lists_never_dequeue_nor_overflow (tx : W) reqs :
  same_frame tx (Lists tx reqs).2
  ∧ views tx `prefix_of` views (Lists tx reqs).2
  ∧ ((length (views tx) ≤ views_cap tx)%nat →
     (length (views (Lists tx reqs).2) ≤ views_cap tx)%nat)
  ∧ (full tx → views (Lists tx reqs).2 = views tx)
  ∧ (length (backend_calls (Lists tx reqs).2)
     ≤ length (backend_calls tx) + length reqs)%nat
  ∧ length (Lists tx reqs).1 = length reqs.
Proof.
  revert tx. induction reqs as [|[[table v] opts] reqs IH]; intros tx.
  { simpl. unfold same_frame. split_and!; try done. lia. }
  rewrite Lists_cons. cbn [fst snd].
  destruct (IH (List tx table v opts).2)
    as ((E1 & E2 & E3) & Hpre & Hcap & Hfull & Hcalls & Hlen).
  destruct (List_cases tx table v opts) as ((F1 & F2 & F3) & _ & Hstep).
  cbn zeta in Hstep. unfold full in *. rewrite F3 in Hcap, Hfull.
  assert ((length (backend_calls (List tx table v opts).2)
           ≤ length (backend_calls tx) + 1)%nat
          ∧ (views (List tx table v opts).2 = views tx
             ∨ views (List tx table v opts).2 = views tx ++ [view_of v opts]
               ∧ (length (views tx) < views_cap tx)%nat))
    as [Hb Hv].
  { destruct Hstep as [(Hb & Hv & _)|(Hb & _ & _ & [(Hv & _)|(Hv & _ & _ & Hroom)])];
      rewrite Hb, ?length_app; simpl; split; try lia; auto. }
  unfold same_frame. split_and!.
  - congruence.
  - congruence.
  - congruence.
  - etrans; [|exact Hpre]. destruct Hv as [->|[-> _]]; [done|].
    by apply prefix_app_r.
  - intros Hle. apply Hcap. destruct Hv as [->|[-> Hroom]]; [done|].
    rewrite length_app. simpl. lia.
  - intros Hf. destruct Hv as [Hv|[_ Hroom]]; [|lia].
    rewrite Hfull; rewrite Hv; done.
  - simpl. lia.
  - simpl. by rewrite Hlen.
Qed.

(** X25. The views keep the pointer of the destination, not a copy of
    what was read: after two reads into the same destination, both on a
    miss, both served by the backend and both queued, the two new views
    point to one and the same value, the result of the second read. The
    result of the first read is gone from the queue. *)
Theorem views_alias_the_destination (tx : W) table1 opts1 table2 opts2 v dst1 dst2 :
  tx_err tx = None →
  cache tx !! CacheKey opts1 = None →
  cache tx !! CacheKey opts2 = None →
  backend_List (backend_calls tx) table1 (heap tx v) opts1 = (None, dst1) →
  backend_List (backend_calls tx ++ [(table1, opts1)]) table2 dst1 opts2
  = (None, dst2) →
  (length (views tx) + 2 ≤ views_cap tx)%nat →
  let tx2 := (Lists tx [(table1, v, opts1); (table2, v, opts2)]).2 in
  (Lists tx [(table1, v, opts1); (table2, v, opts2)]).1 = [None; None]
  ∧ views tx2 = views tx ++ [view_of v opts1; view_of v opts2]
  ∧ heap tx2 (Value (view_of v opts1)) = dst2
  ∧ heap tx2 (Value (view_of v opts2)) = dst2.
Proof.
  intros He Hc1 Hc2 Hb1 Hb2 Hroom tx2. subst tx2.
  assert (List tx table1 v opts1
          = (None, {| tx_err := None; cache := cache tx;
                      views := views tx ++ [view_of v opts1];
                      views_cap := views_cap tx;
                      backend_calls := backend_calls tx ++ [(table1, opts1)];
                      heap := <[v := dst1]> (heap tx) |})) as E1.
  { unfold Txn.List. rewrite He, Hc1, Hb1. unfold try_send. simpl.
    destruct (Nat.ltb_spec (length (views tx)) (views_cap tx)); [|lia].
    by rewrite He. }
  rewrite Lists_cons, E1. cbn [fst snd]. rewrite Lists_cons. cbn [fst snd].
  set (tx1 := {| tx_err := None; cache := cache tx;
                 views := views tx ++ [view_of v opts1];
                 views_cap := views_cap tx;
                 backend_calls := backend_calls tx ++ [(table1, opts1)];
                 heap := <[v := dst1]> (heap tx) |}).
  assert (List tx1 table2 v opts2
          = (None, {| tx_err := None; cache := cache tx;
                      views := (views tx ++ [view_of v opts1]) ++ [view_of v opts2];
                      views_cap := views_cap tx;
                      backend_calls :=
                        (backend_calls tx ++ [(table1, opts1)]) ++ [(table2, opts2)];
                      heap := <[v := dst2]> (<[v := dst1]> (heap tx)) |})) as E2.
  { unfold Txn.List, tx1. cbn [tx_err cache backend_calls heap].
    rewrite Hc2, fn_lookup_insert, Hb2. unfold try_send. simpl.
    rewrite length_app. simpl.
    destruct (Nat.ltb_spec (length (views tx) + 1) (views_cap tx)); [done|lia]. }
  rewrite E2. simpl. rewrite <-app_assoc, !fn_lookup_insert. done.
Qed.

End Read.

Lemma views_alias_the_destination_witness :
  (Txn.Lists id example_copy example_backend roomy_tx
     [("users", 7%nat, "page=1"); ("orders", 7%nat, "page=2")]).1 = [None; None]
  ∧ views (Txn.Lists id example_copy example_backend roomy_tx
             [("users", 7%nat, "page=1"); ("orders", 7%nat, "page=2")]).2
    = views roomy_tx ++ [view_of id 7%nat "page=1"; view_of id 7%nat "page=2"]
  ∧ heap (Txn.Lists id example_copy example_backend roomy_tx
            [("users", 7%nat, "page=1"); ("orders", 7%nat, "page=2")]).2
      (Value (view_of id 7%nat "page=1")) = ["row of orders"]
  ∧ heap (Txn.Lists id example_copy example_backend roomy_tx
            [("users", 7%nat, "page=1"); ("orders", 7%nat, "page=2")]).2
      (Value (view_of id 7%nat "page=2")) = ["row of orders"].
Proof.
  apply (views_alias_the_destination id example_copy example_backend roomy_tx
           "users" "page=1" "orders" "page=2" 7%nat
           ["row of users"] ["row of orders"]).
  - reflexivity.
  - reflexivity.
  - reflexivity.
  - reflexivity.
  - reflexivity.
  - simpl. lia.
Defined.

End TxnFacts.
